(** * ipfs-cluster-service: offline state commands

    A shallow embedding of [cmd/ipfs-cluster-service/state.go]: the
    commands that read the latest raft snapshot, check or migrate its schema
    version, and write it back or export/import it as JSON.

    The commands orchestrate packages that live outside this file
    ([consensus/raft], [state/mapstate], [pstoremgr], [encoding/json], the
    configuration manager).  Those packages are taken as interfaces: a type
    class per Go package, bundled per name space in a Rocq module that
    carries the package's name.  Calls into them are recorded in a trace so
    that statements about "what was called, with what, in which order" can
    be made about the commands themselves. *)

From stdpp Require Import base option list strings gmap pretty.
From Stdlib Require Import ZArith.
From Stdlib.Strings Require Import Byte.

Open Scope Z_scope.

(** ** Errors

    Go compares errors by identity.  The two errors created with
    [errors.New] in state.go can therefore never be equal to an error that
    a collaborator returns; the embedding keeps that apart by construction. *)

(** An error value produced by a collaborator package (its message). *)
Definition exterr := string.

Inductive error :=
| errNoSnapshot                (* var errNoSnapshot = errors.New("no snapshot found") *)
| errOutdatedState             (* errors.New("outdated state version stored") *)
| External (e : exterr).       (* an error handed back by a collaborator *)

Definition error_message (e : error) : string :=
  match e with
  | errNoSnapshot => "no snapshot found"
  | errOutdatedState => "outdated state version stored"
  | External m => m
  end.

(** [err] as returned by a collaborator, seen as a Go [error]. *)
Definition ext (err : option exterr) : option error := External <$> err.

(** ** Readers and writers *)

Definition bytes := list byte.

(** An [io.Reader]: the underlying content, the read offset, and the error
    the stream reports once the content is exhausted ([None] is [io.EOF]). *)
Record ioReader := mkReader {
  buf : bytes;
  pos : nat;
  fail : option exterr;
}.

(** An [io.Writer]: what has been written, and whether writes fail. *)
Record ioWriter := mkWriter {
  written : bytes;
  wfail : option exterr;
}.

Module bytes_pkg.
(** [bytes.NewReader(b)]: a cursor at offset 0 over [b]; reading from it
    never fails and never changes [b]. *)
Definition NewReader (b : bytes) : ioReader :=
  {| buf := b; pos := 0; fail := None |}.
End bytes_pkg.

Module ioutil.
(** [ioutil.ReadAll(r)]: everything from the current offset on, and the
    stream's error if it has one. *)
Definition ReadAll (r : ioReader) : bytes * option exterr :=
  (drop (pos r) (buf r), fail r).
End ioutil.

Module io.
(** [w.Write(b)] *)
Definition Write (w : ioWriter) (b : bytes) : ioWriter * option exterr :=
  match wfail w with
  | Some e => (w, Some e)
  | None => ({| written := written w ++ b; wfail := None |}, None)
  end.
End io.

Arguments bytes_pkg.NewReader : simpl never.
Arguments ioutil.ReadAll : simpl never.
Arguments io.Write : simpl never.

(** ** Collaborator interfaces *)

Definition PeerID := string.
Definition Multiaddr := string.

Module mapstate.
(** The [state.State] interface as state.go uses it through
    [mapstate.MapState].  A Go method that mutates its receiver returns
    the receiver's new value here; a method that reads from an
    [io.Reader] returns the reader as it left it. *)
Class State (Pin MapState : Type) := {
  Version : Z;
  NewMapState : MapState;
  GetVersion : MapState -> Z;
  Unmarshal : MapState -> ioReader -> MapState * ioReader * option exterr;
  Migrate : MapState -> ioReader -> MapState * ioReader * option exterr;
  Add : MapState -> Pin -> MapState * option exterr;
  List : MapState -> list Pin;
}.
End mapstate.

Module json.
(** [encoding/json] at type [[]*api.Pin]. *)
Class Codec (Pin : Type) := {
  MarshalIndent : list Pin -> string -> string -> bytes + exterr;
  Decode : ioReader -> list Pin + exterr;
}.

(** The byte that [Encoder.Encode] puts after each value. *)
Definition newline : byte := x0a.

(** [enc.Encode(v)] after [enc.SetIndent(prefix, indent)]: marshal and
    indent, terminate the value with a newline, then one write to the
    encoder's writer. *)
Definition Encode {Pin} `{Codec Pin}
    (w : ioWriter) (prefix indent : string) (v : list Pin)
    : ioWriter * option exterr :=
  match MarshalIndent v prefix indent with
  | inr e => (w, Some e)
  | inl b => io.Write w (b ++ [newline])
  end.
End json.

Module raft.
(** [raft.Config], as far as state.go looks into it. *)
Record Config := mkConfig {
  DataFolder : string;
  BackupsRotate : nat;
}.
End raft.

(** What [makeConfigs] and a successful [LoadJSONFileAndEnv] give. *)
Record Configs := mkConfigs {
  clusterID : PeerID;
  PeerstorePath : string;
  consensusCfg : raft.Config;
}.

(** The world outside the process: configuration file, raft data folder,
    peerstore.  [LoadJSONFileAndEnv k] is the outcome of the [k]-th load
    of the configuration in one run (0-based). *)
Record Env (MapState : Type) := mkEnv {
  LoadJSONFileAndEnv : nat -> Configs * option exterr;
  LastStateRaw : raft.Config -> ioReader * bool * option exterr;
  SnapshotSave : raft.Config -> MapState -> list PeerID -> option exterr;
  CleanupRaft : string -> nat -> option exterr;
  LoadPeerstore : string -> list Multiaddr;
  PeersFromMultiaddrs : list Multiaddr -> list PeerID;
}.
Arguments LoadJSONFileAndEnv {MapState} _ _.
Arguments LastStateRaw {MapState} _ _.
Arguments SnapshotSave {MapState} _ _ _ _.
Arguments CleanupRaft {MapState} _ _ _.
Arguments LoadPeerstore {MapState} _ _.
Arguments PeersFromMultiaddrs {MapState} _ _.

(** ** Traces *)

Inductive Level := Warning | Error.

Inductive Event (Pin MapState : Type) :=
| CallLoadConfig (k : nat)
| CallLastStateRaw (c : raft.Config)
| CallReadAll (r : ioReader)
| CallUnmarshal (r : ioReader)
| CallMigrate (r : ioReader)
| CallAdd (p : Pin)
| CallLoadPeerstore (path : string)
| CallSnapshotSave (c : raft.Config) (st : MapState) (peers : list PeerID)
| CallCleanupRaft (dataFolder : string) (keep : nat)
| Log (lvl : Level) (msg : string).
Arguments CallLoadConfig {Pin MapState} _.
Arguments CallLastStateRaw {Pin MapState} _.
Arguments CallReadAll {Pin MapState} _.
Arguments CallUnmarshal {Pin MapState} _.
Arguments CallMigrate {Pin MapState} _.
Arguments CallAdd {Pin MapState} _.
Arguments CallLoadPeerstore {Pin MapState} _.
Arguments CallSnapshotSave {Pin MapState} _ _ _.
Arguments CallCleanupRaft {Pin MapState} _ _.
Arguments Log {Pin MapState} _ _.

(** The process state threaded through a command: how many times the
    configuration was loaded, and the calls made so far, oldest first. *)
Record World (Pin MapState : Type) := mkWorld {
  loads : nat;
  trace : list (Event Pin MapState);
}.
Arguments mkWorld {Pin MapState} _ _.
Arguments loads {Pin MapState} _.
Arguments trace {Pin MapState} _.

Definition M (Pin MapState A : Type) : Type :=
  World Pin MapState -> A * World Pin MapState.

Definition ret {Pin MapState A} (a : A) : M Pin MapState A :=
  fun w => (a, w).

Definition bind {Pin MapState A B}
    (m : M Pin MapState A) (k : A -> M Pin MapState B) : M Pin MapState B :=
  fun w => let (a, w') := m w in k a w'.

Definition emit {Pin MapState} (ev : Event Pin MapState) : M Pin MapState unit :=
  fun w => (tt, {| loads := loads w; trace := trace w ++ [ev] |}).

Notation "'let!' x ':=' m 'in' k" := (bind m (fun x => k))
  (at level 10, x pattern, m at level 100, k at level 200).
Notation "m ';;' k" := (bind m (fun _ => k))
  (at level 100, k at level 200, right associativity).

(** A fresh process: nothing loaded, nothing called. *)
Definition start {Pin MapState} : World Pin MapState :=
  {| loads := 0; trace := [] |}.

(** ** The commands of state.go *)

Section Daemon.
Context {Pin MapState : Type}.
Context `{!mapstate.State Pin MapState} `{!json.Codec Pin}.
Variable env : Env MapState.

Local Abbreviation Cmd := (M Pin MapState).

(** [cfgMgr, cfgs := makeConfigs(); err := cfgMgr.LoadJSONFileAndEnv(configPath)] *)
Definition loadConfigs : Cmd (Configs * option exterr) :=
  fun w =>
    (LoadJSONFileAndEnv env (loads w),
     {| loads := S (loads w); trace := trace w ++ [CallLoadConfig (loads w)] |}).

Definition callLastStateRaw (c : raft.Config)
    : Cmd (ioReader * bool * option exterr) :=
  emit (CallLastStateRaw c) ;; ret (LastStateRaw env c).

Definition callReadAll (r : ioReader) : Cmd (bytes * option exterr) :=
  emit (CallReadAll r) ;; ret (ioutil.ReadAll r).

Definition callUnmarshal (st : MapState) (r : ioReader)
    : Cmd (MapState * option exterr) :=
  emit (CallUnmarshal r) ;;
  let '(st', _, err) := mapstate.Unmarshal st r in ret (st', err).

Definition callMigrate (st : MapState) (r : ioReader)
    : Cmd (MapState * option exterr) :=
  emit (CallMigrate r) ;;
  let '(st', _, err) := mapstate.Migrate st r in ret (st', err).

Definition callAdd (st : MapState) (p : Pin) : Cmd (MapState * option exterr) :=
  emit (CallAdd p) ;; ret (mapstate.Add st p).

Definition callLoadPeerstore (path : string) : Cmd (list Multiaddr) :=
  emit (CallLoadPeerstore path) ;; ret (LoadPeerstore env path).

Definition callSnapshotSave (c : raft.Config) (st : MapState)
    (peers : list PeerID) : Cmd (option exterr) :=
  emit (CallSnapshotSave c st peers) ;; ret (SnapshotSave env c st peers).

Definition logger (lvl : Level) (msg : string) : Cmd unit :=
  emit (Log lvl msg).

(** [restoreStateFromDisk]: the latest snapshot as a state, a flag that
    is true when the snapshot already has the current format, and an
    error.  A nil state is [None]. *)
Definition restoreStateFromDisk : Cmd (option MapState * bool * option error) :=
  let! (cfgs, err) := loadConfigs in
  match err with
  | Some e => ret (None, false, Some (External e))
  | None =>
    let! (r, snapExists, err) := callLastStateRaw (consensusCfg cfgs) in
    let err := if negb snapExists then Some errNoSnapshot else ext err in
    match err with
    | Some e => ret (None, false, Some e)
    | None =>
      let! (full, err) := callReadAll r in
      match err with
      | Some e => ret (None, false, Some (External e))
      | None =>
        let stateFromSnap := mapstate.NewMapState in
        let reader1 := bytes_pkg.NewReader full in
        let! (stateFromSnap, err) := callUnmarshal stateFromSnap reader1 in
        match err with
        | Some e => ret (None, false, Some (External e))
        | None =>
          if bool_decide (mapstate.GetVersion stateFromSnap = mapstate.Version)
          then ret (Some stateFromSnap, true, None)
          else
            let reader2 := bytes_pkg.NewReader full in
            let! (stateFromSnap, err) := callMigrate stateFromSnap reader2 in
            match err with
            | Some e => ret (None, false, Some (External e))
            | None => ret (Some stateFromSnap, false, None)
            end
        end
      end
    end
  end.

(** [raft.SnapshotSave(cfgs.consensusCfg, st, raftPeers)] with
    [raftPeers := append(PeersFromMultiaddrs(pm.LoadPeerstore()), cfgs.clusterCfg.ID)],
    the tail shared by [upgrade] and [stateImport]. *)
Definition raftPeers (cfgs : Configs) : list PeerID :=
  PeersFromMultiaddrs env (LoadPeerstore env (PeerstorePath cfgs)) ++ [clusterID cfgs].

Definition saveWithPeers (cfgs : Configs) (st : MapState) : Cmd (option error) :=
  let! addrs := callLoadPeerstore (PeerstorePath cfgs) in
  let raftPeers := PeersFromMultiaddrs env addrs ++ [clusterID cfgs] in
  let! err := callSnapshotSave (consensusCfg cfgs) st raftPeers in
  ret (ext err).

Definition upgrade : Cmd (option error) :=
  let! (newState, current, err) := restoreStateFromDisk in
  match err with
  | Some e => ret (Some e)
  | None =>
    if (current : bool) then
      logger Warning "Skipping migration of up-to-date state" ;;
      ret None
    else
      let! (cfgs, err) := loadConfigs in
      match err with
      | Some e => ret (Some (External e))
      | None =>
        match newState with
        | Some newState => saveWithPeers cfgs newState
        | None => ret None (* unreachable: a nil state comes with an error *)
        end
      end
  end.

(** [exportState]: the pins of the state as indented JSON on [w]. *)
Definition exportState (st : MapState) (w : ioWriter) : Cmd (ioWriter * option error) :=
  let pins := mapstate.List st in
  let '(w', err) := json.Encode w "" "    " pins in
  ret (w', ext err).

Definition export (w : ioWriter) : Cmd (ioWriter * option error) :=
  let! (stateToExport, _, err) := restoreStateFromDisk in
  match err, stateToExport with
  | Some e, _ => ret (w, Some e)
  | None, Some stateToExport => exportState stateToExport w
  | None, None => ret (w, None) (* unreachable *)
  end.

(** The loop of [stateImport]:
    [for _, p := range pins { err = st.Add(ctx, p); if err != nil { return err } }] *)
Fixpoint addPins (st : MapState) (pins : list Pin) : Cmd (MapState * option exterr) :=
  match pins with
  | [] => ret (st, None)
  | p :: pins =>
    let! (st, err) := callAdd st p in
    match err with
    | Some e => ret (st, Some e)
    | None => addPins st pins
    end
  end.

Definition stateImport (r : ioReader) : Cmd (option error) :=
  let! (cfgs, err) := loadConfigs in
  match err with
  | Some e => ret (Some (External e))
  | None =>
    match json.Decode r with
    | inr e => ret (Some (External e))
    | inl pins =>
      let stateToImport := mapstate.NewMapState in
      let! (stateToImport, err) := addPins stateToImport pins in
      match err with
      | Some e => ret (Some (External e))
      | None => saveWithPeers cfgs stateToImport
      end
    end
  end.

Definition corrupt_after_read : string :=
  "error after reading last snapshot. Snapshot potentially corrupt.".
Definition corrupt_unmarshal : string :=
  "error unmarshalling snapshot. Snapshot potentially corrupt.".
Definition outdated_banner : list string :=
  [ "!!!!!!!!!!!!!!!!!!!!!!!!!!!!!!!!!!!!!!!!!!!!!!!";
    "Out of date ipfs-cluster state is saved.";
    "To migrate to the new version, run ipfs-cluster-service state upgrade.";
    "To launch a node without this state, rename the consensus data directory.";
    "Hint: the default is .ipfs-cluster/raft.";
    "!!!!!!!!!!!!!!!!!!!!!!!!!!!!!!!!!!!!!!!!!!!!!!!" ].

Fixpoint logLines (lvl : Level) (msgs : list string) : Cmd unit :=
  match msgs with
  | [] => ret tt
  | m :: msgs => logger lvl m ;; logLines lvl msgs
  end.

(** [validateVersion(ctx, cfg, cCfg)] *)
Definition validateVersion (cCfg : raft.Config) : Cmd (option error) :=
  let state := mapstate.NewMapState in
  let! (r, snapExists, err) := callLastStateRaw cCfg in
  match snapExists, err with
  | false, Some e =>
    logger Error "error before reading latest snapshot." ;;
    ret (Some (External e))
  | true, Some e =>
    logger Error corrupt_after_read ;;
    ret (Some (External e))
  | true, None =>
    let! (state, err2) := callUnmarshal state r in
    match err2 with
    | Some e2 =>
      logger Error corrupt_unmarshal ;;
      ret (Some (External e2))
    | None =>
      if bool_decide (mapstate.GetVersion state ≠ mapstate.Version) then
        logLines Error outdated_banner ;;
        ret (Some errOutdatedState)
      else ret None
    end
  | false, None => ret None (* no existing state, no check needed *)
  end.

(** [cleanupState(cCfg)] *)
Definition cleanupState (cCfg : raft.Config) : Cmd (option error) :=
  emit (CallCleanupRaft (raft.DataFolder cCfg) (raft.BackupsRotate cCfg)) ;;
  let err := CleanupRaft env (raft.DataFolder cCfg) (raft.BackupsRotate cCfg) in
  match err with
  | None =>
    logger Warning ("the " +:+ raft.DataFolder cCfg
                    +:+ " folder has been rotated.  Next start will use an empty state") ;;
    ret None
  | Some e => ret (Some (External e))
  end.

End Daemon.

Arguments restoreStateFromDisk {Pin MapState _} env.
Arguments upgrade {Pin MapState _} env.
Arguments validateVersion {Pin MapState _} env cCfg.
Arguments raftPeers {MapState} env cfgs.

(** ** Reading a trace *)

Section Traces.
Context {Pin MapState : Type}.
Implicit Types (tr : list (Event Pin MapState)) (w : World Pin MapState).

(** The events a command run appended: the trace after, without the
    trace before. *)
Definition since w (w' : World Pin MapState) : list (Event Pin MapState) :=
  drop (length (trace w)) (trace w').

(** The arguments of the [raft.SnapshotSave] calls of a trace, in order. *)
Definition saves tr : list (raft.Config * MapState * list PeerID) :=
  omap (fun ev => match ev with
                  | CallSnapshotSave c st peers => Some (c, st, peers)
                  | _ => None
                  end) tr.

(** The pins handed to [Add], in order. *)
Definition adds tr : list Pin :=
  omap (fun ev => match ev with CallAdd p => Some p | _ => None end) tr.

(** The messages logged, in order. *)
Definition logged tr : list string :=
  omap (fun ev => match ev with Log _ msg => Some msg | _ => None end) tr.

(** The reads of snapshot content: [ReadAll] on the raw stream and the two
    decoders, each with the reader it was given. *)
Inductive Read :=
| ReadAllOf (r : ioReader)
| UnmarshalOf (r : ioReader)
| MigrateOf (r : ioReader).

Definition reads tr : list Read :=
  omap (fun ev => match ev with
                  | CallReadAll r => Some (ReadAllOf r)
                  | CallUnmarshal r => Some (UnmarshalOf r)
                  | CallMigrate r => Some (MigrateOf r)
                  | _ => None
                  end) tr.
End Traces.

(** ** Contracts of the collaborators

    What the round trip through [exportState] and [stateImport] needs of
    the state container and of the JSON codec.  Nothing is asked about
    adding a pin whose identifier is already present: the container may
    reject it or overwrite. *)

Class StateLaws {Pin MapState Cid : Type} `{!mapstate.State Pin MapState}
    (cidOf : Pin -> Cid) : Prop := {
  list_new : mapstate.List mapstate.NewMapState = [];
  list_nodup : forall st : MapState, NoDup (cidOf <$> mapstate.List st);
  add_fresh : forall (st : MapState) (p : Pin),
    cidOf p ∉ cidOf <$> mapstate.List st ->
    exists st', mapstate.Add st p = (st', None) /\
      forall q, q ∈ mapstate.List st' <-> q = p \/ q ∈ mapstate.List st;
}.

Class CodecLaws {Pin : Type} `{!json.Codec Pin} : Prop := {
  (* [Decode] reads back a value as [Encode] writes it: the indented text
     and the newline after it. *)
  decode_encoded : forall (pins : list Pin) (prefix indent : string) (b : bytes),
    json.MarshalIndent pins prefix indent = inl b ->
    json.Decode (bytes_pkg.NewReader (b ++ [json.newline])) = inl pins;
}.
Arguments CodecLaws Pin {_}.

(** ** A reference implementation of the collaborators

    Used to run the commands on concrete inputs. *)

Module Ref.

(** A pin: content identifier and replication factor. *)
Definition Pin : Type := N * N.
Definition cidOf (p : Pin) : N := p.1.

Record MapState := mkState {
  version : Z;
  PinMap : gmap N N;
}.

Definition Version : Z := 2.

(** Pins on the wire: two bytes each, identifier then replication factor. *)
Fixpoint decodePins (b : bytes) : option (list Pin) :=
  match b with
  | [] => Some []
  | c :: r :: b => cons (Byte.to_N c, Byte.to_N r) <$> decodePins b
  | [_] => None
  end.

Fixpoint encodePins (pins : list Pin) : option bytes :=
  match pins with
  | [] => Some []
  | (c, r) :: pins =>
    match Byte.of_N c, Byte.of_N r, encodePins pins with
    | Some c, Some r, Some b => Some (c :: r :: b)
    | _, _, _ => None
    end
  end.

(** One value from a JSON stream: the pins, and the newline that may
    follow them. *)
Fixpoint decodeValue (b : bytes) : option (list Pin) :=
  match b with
  | [] => Some []
  | [c] => if Byte.eqb c json.newline then Some [] else None
  | c :: r :: b => cons (Byte.to_N c, Byte.to_N r) <$> decodeValue b
  end.

Definition atEnd (r : ioReader) : ioReader :=
  {| buf := buf r; pos := length (buf r); fail := fail r |}.

(** Modelled from the spec: [mapstate.Unmarshal] is not among the sources.
    It decodes the version first; an older version is not an error, the
    pins are then left for [Migrate]. *)
Definition Unmarshal (st : MapState) (r : ioReader)
    : MapState * ioReader * option exterr :=
  match ioutil.ReadAll r with
  | (_, Some e) => (st, atEnd r, Some e)
  | ([], None) => (st, atEnd r, Some "EOF"%string)
  | (v :: snap, None) =>
    if bool_decide (Z.of_N (Byte.to_N v) = Version) then
      match decodePins snap with
      | Some pins => ({| version := Version; PinMap := list_to_map pins |}, atEnd r, None)
      | None => (st, atEnd r, Some "unexpected EOF"%string)
      end
    else ({| version := Z.of_N (Byte.to_N v); PinMap := PinMap st |}, atEnd r, None)
  end.

(** Modelled from the spec: [mapstate.Migrate] is not among the sources.
    Version 1 snapshots hold identifiers only, one byte each; migration
    gives each the default replication factor 0. *)
Definition Migrate (st : MapState) (r : ioReader)
    : MapState * ioReader * option exterr :=
  match ioutil.ReadAll r with
  | (_, Some e) => (st, atEnd r, Some e)
  | ([], None) => (st, atEnd r, Some "EOF"%string)
  | (v :: snap, None) =>
    if bool_decide (Z.of_N (Byte.to_N v) = Version) then (st, atEnd r, None)
    else if bool_decide (Z.of_N (Byte.to_N v) = 1) then
      ({| version := Version;
          PinMap := list_to_map ((fun c => (Byte.to_N c, 0%N)) <$> snap) |},
       atEnd r, None)
    else (st, atEnd r, Some "unsupported state version"%string)
  end.

(** Modelled from the spec: [mapstate.Add] and [List] are not among the
    sources.  The identifier is the key; adding overwrites. *)
Definition Add (st : MapState) (p : Pin) : MapState * option exterr :=
  ({| version := version st; PinMap := <[p.1 := p.2]> (PinMap st) |}, None).

Definition List (st : MapState) : list Pin := map_to_list (PinMap st).

#[global] Instance state : mapstate.State Pin MapState := {|
  mapstate.Version := Version;
  mapstate.NewMapState := {| version := Version; PinMap := ∅ |};
  mapstate.GetVersion := version;
  mapstate.Unmarshal := Unmarshal;
  mapstate.Migrate := Migrate;
  mapstate.Add := Add;
  mapstate.List := List;
|}.

#[global] Instance codec : json.Codec Pin := {|
  json.MarshalIndent pins _ _ :=
    match encodePins pins with
    | Some b => inl b
    | None => inr "json: unsupported value"%string
    end;
  json.Decode r :=
    match ioutil.ReadAll r with
    | (_, Some e) => inr e
    | (b, None) =>
      match decodeValue b with
      | Some pins => inl pins
      | None => inr "unexpected end of JSON input"%string
      end
    end;
|}.

Definition cfg : Configs :=
  {| clusterID := "QmSelf";
     PeerstorePath := "peerstore";
     consensusCfg := {| raft.DataFolder := "raft"; raft.BackupsRotate := 6 |} |}.

(** A world whose configuration always loads, whose snapshot store
    answers [snap], whose peerstore holds [addrs], and where saving
    succeeds. *)
Definition world (snap : ioReader * bool * option exterr) (addrs : list Multiaddr)
    : Env MapState :=
  {| LoadJSONFileAndEnv := fun _ => (cfg, None);
     LastStateRaw := fun _ => snap;
     SnapshotSave := fun _ _ _ => None;
     CleanupRaft := fun _ _ => None;
     LoadPeerstore := fun _ => addrs;
     PeersFromMultiaddrs := fun addrs => addrs |}.

Definition stream (b : bytes) : ioReader := bytes_pkg.NewReader b.

(** No snapshot, no error. *)
Definition absent : ioReader * bool * option exterr :=
  (stream [], false, None).
(** The snapshot store could not be opened. *)
Definition unreadable : ioReader * bool * option exterr :=
  (stream [], false, Some "open raft/snapshots: permission denied"%string).
Definition present (b : bytes) : ioReader * bool * option exterr :=
  (stream b, true, None).

(** Version 2, pins 7 (replication 2) and 9 (replication 3). *)
Definition snapV2 : bytes := [x02; x07; x02; x09; x03].
(** Version 1, no pins. *)
Definition snapV1empty : bytes := [x01].
(** Version 1, pins 7 and 9. *)
Definition snapV1 : bytes := [x01; x07; x09].
(** Version 3: decodes as "older", cannot be migrated. *)
Definition snapV3 : bytes := [x03; x07].
(** Version 2, cut in the middle of a pin. *)
Definition snapTruncated : bytes := [x02; x07].

End Ref.

(** ** Vocabulary for the statements *)

(** [mentions needle s]: [needle] occurs in [s]. *)
Fixpoint mentions (needle s : string) : bool :=
  String.prefix needle s
  || match s with
     | EmptyString => false
     | String _ s' => mentions needle s'
     end.

(** The log flags the snapshot as possibly corrupt. *)
Definition flagsCorruption (msgs : list string) : bool :=
  existsb (mentions "Snapshot potentially corrupt") msgs.

(** The log tells the operator both ways out of an outdated state: run the
    upgrade, or rename the consensus data directory. *)
Definition givesGuidance (msgs : list string) : bool :=
  existsb (mentions "run ipfs-cluster-service state upgrade") msgs
  && existsb (mentions "rename the consensus data directory") msgs.

(** The state after adding [pins] to [st] in order, when every [Add]
    succeeds. *)
Fixpoint addedAll {Pin MapState} `{!mapstate.State Pin MapState}
    (st : MapState) (pins : list Pin) : option MapState :=
  match pins with
  | [] => Some st
  | p :: pins =>
    match mapstate.Add st p with
    | (st', None) => addedAll st' pins
    | (_, Some _) => None
    end
  end.

(** Two states hold the same records, as sets. *)
Definition sameRecords {Pin MapState} `{!mapstate.State Pin MapState}
    (st1 st2 : MapState) : Prop :=
  forall p : Pin, p ∈ mapstate.List st1 <-> p ∈ mapstate.List st2.

(** * config/util.go *)

Module config.

(** [in(arr, a)] *)
Fixpoint in_ (arr : list string) (a : string) : bool :=
  match arr with
  | [] => false
  | f :: arr => if bool_decide (a = f) then true else in_ arr a
  end.

(** ** [String] and [sType]

    A [reflect.Value] as [sType] sees it: its kind and, per kind, what the
    accessors return.  Values are finite trees; a map comes with its
    entries in the order [MapKeys] gave them; a [float64] is kept as the
    text that the verb [%f] prints for it. *)
#[local] Unset Elimination Schemes.
Inductive Value :=
| Struct (fields : list (string * Value))   (* field name, field value *)
| Slice (elems : list Value)
| Map (entries : list (Value * Value))
| Ptr (target : option Value)               (* [None]: a nil pointer *)
| Str (s : string)
| Int (n : Z)
| Bool (b : bool)
| Float64 (text : string)
| Int64 (n : Z)
| Uint64 (n : Z)
| Uint32 (n : Z)
| Other (kind : string).                    (* any other kind, by [Kind().String()] *)
#[local] Set Elimination Schemes.

Definition nl : string := String (Ascii.ascii_of_nat 10) EmptyString.

(** [utf8.RuneCountInString] on well-formed UTF-8, which the name of a
    struct field is: the bytes that do not continue a rune (those outside
    [0x80..0xBF]). *)
Fixpoint runeCount (s : string) : nat :=
  match s with
  | EmptyString => 0
  | String a s =>
    (if bool_decide (128 <= Ascii.nat_of_ascii a < 192)%nat then 0 else 1)%nat
    + runeCount s
  end.

(** The verb [%-20s]: left-justified in a field of 20 runes. *)
Definition padRight (width : nat) (s : string) : string :=
  s +:+ String.concat "" (replicate (width - runeCount s) " "%string).

(** The verb [%d]. *)
Definition fmt_d (n : Z) : string := pretty n.

(** The verb [%t]. *)
Definition fmt_t (b : bool) : string := if b then "true" else "false".

(** The [default] branch of [sType]. *)
Definition unexpected (kind : string) : string := "unexpected kind " +:+ kind.

(** [sType(v, hidden, padding)].  The branches for [reflect.Map] and
    [reflect.Ptr] build [result] and do not return it: control leaves the
    switch and reaches [return ""]. *)
Fixpoint sType (v : Value) (hidden : list string) (padding : string) : string :=
  match v with
  | Struct fields =>
    let childPadding := padding +:+ "  " in
    let fix fieldLines (fs : list (string * Value)) : string :=
      match fs with
      | [] => ""
      | (childName, field) :: fs =>
        (if in_ hidden childName then ""
         else
           match field with
           | Struct _ | Slice _ | Map _ =>
             childPadding +:+ padRight 20 childName +:+ " : "
               +:+ sType field hidden childPadding +:+ "," +:+ nl
           | Ptr target =>
             (* sType(reflect.Indirect(field), hidden, childPadding) *)
             childPadding +:+ padRight 20 childName +:+ " : "
               +:+ match target with
                   | Some t => sType t hidden childPadding
                   | None => unexpected "invalid"
                   end
               +:+ "," +:+ nl
           | _ =>
             childPadding +:+ padRight 20 childName +:+ " : "
               +:+ sType field [] "" +:+ "," +:+ nl
           end)
        +:+ fieldLines fs
      end in
    "{" +:+ nl +:+ fieldLines fields +:+ padding +:+ "}"
  | Slice elems =>
    let slicePadding := padding +:+ "  " in
    let fix elemLines (es : list Value) : string :=
      match es with
      | [] => ""
      | e :: es => slicePadding +:+ sType e [] "" +:+ "," +:+ nl +:+ elemLines es
      end in
    "[" +:+ nl +:+ elemLines elems +:+ padding +:+ "]"
  | Map entries =>
    let slicePadding := padding +:+ "  " in
    let fix entryLines (es : list (Value * Value)) : string :=
      match es with
      | [] => ""
      | (_, e) :: es => slicePadding +:+ sType e [] "" +:+ "," +:+ nl +:+ entryLines es
      end in
    let result := "{" +:+ nl +:+ entryLines entries +:+ padding +:+ "}" in
    ""
  | Ptr target =>
    let result := match target with
                  | Some t => sType t hidden padding
                  | None => unexpected "invalid"
                  end in
    ""
  | Str s => s
  | Int n => fmt_d n
  | Bool b => fmt_t b
  | Float64 text => text
  | Int64 n => fmt_d n
  | Uint64 n => fmt_d n
  | Uint32 n => fmt_d n
  | Other kind => unexpected kind
  end.

(** [v] without the struct fields that [hidden] names, as far as [sType]
    carries [hidden] along: into structs that are fields and behind
    pointers that are fields, not into slices or maps. *)
Fixpoint prune (hidden : list string) (v : Value) : Value :=
  match v with
  | Struct fields =>
    Struct ((fix pruneFields (fs : list (string * Value)) : list (string * Value) :=
               match fs with
               | [] => []
               | (childName, field) :: fs =>
                 if in_ hidden childName then pruneFields fs
                 else (childName,
                       match field with
                       | Ptr (Some t) => Ptr (Some (prune hidden t))
                       | _ => prune hidden field
                       end) :: pruneFields fs
               end) fields)
  | _ => v
  end.

(** [String(cfg, hidden)], with [cfg] as [reflect.ValueOf] gives it. *)
Definition String (cfg : Value) (hidden : list string) : string :=
  sType cfg hidden "".


(** ** [SetIfNotDefault] *)

(** The dynamic value of an [interface{}] argument, by the cases of the
    type switch; any other type is [VOther] with its name. *)
Inductive Val :=
| VDuration (t : Z)
| VString (str : string)
| VUint64 (n : Z)
| VInt (n : Z)
| VBool (b : bool)
| VOther (type : string).

(** What [dest] holds: a pointer with its target, a nil pointer, or
    something that is no pointer. *)
Inductive Dest :=
| Pointer (target : Val)
| NilPointer
| NonPointer.

(** A call either returns, leaving [dest] as given, or panics. *)
Inductive Outcome (A : Type) :=
| Returned (a : A)
| Panic.
Arguments Returned {A} a.
Arguments Panic {A}.

Definition sameType (v1 v2 : Val) : bool :=
  match v1, v2 with
  | VDuration _, VDuration _ | VString _, VString _ | VUint64 _, VUint64 _
  | VInt _, VInt _ | VBool _, VBool _ => true
  | VOther t1, VOther t2 => bool_decide (t1 = t2)
  | _, _ => false
  end.

(** The assignment of [v] through [dest], asserted to be a pointer to the
    type of [v]: the assertion panics unless [dest] is such a pointer, and
    the assignment panics on a nil pointer. *)
Definition assign (v : Val) (dest : Dest) : Outcome Dest :=
  match dest with
  | Pointer old => if sameType old v then Returned (Pointer v) else Panic
  | NilPointer | NonPointer => Panic
  end.

Definition SetIfNotDefault (src : Val) (dest : Dest) : Outcome Dest :=
  match src with
  | VDuration t => if bool_decide (t <> 0) then assign (VDuration t) dest else Returned dest
  | VString str => if bool_decide (str <> "") then assign (VString str) dest else Returned dest
  | VUint64 n => if bool_decide (n <> 0) then assign (VUint64 n) dest else Returned dest
  | VInt n => if bool_decide (n <> 0) then assign (VInt n) dest else Returned dest
  | VBool b => if b then assign (VBool b) dest else Returned dest
  | VOther _ => Returned dest
  end.

(** [src] is the default (zero) value of a type the switch knows. *)
Definition isDefault (src : Val) : bool :=
  match src with
  | VDuration t => bool_decide (t = 0)
  | VString str => bool_decide (str = "")
  | VUint64 n => bool_decide (n = 0)
  | VInt n => bool_decide (n = 0)
  | VBool b => negb b
  | VOther _ => false
  end.

(** The switch has a case for the type of [src]. *)
Definition supported (src : Val) : bool :=
  match src with VOther _ => false | _ => true end.

(** ** [ParseDurations] *)

(** A [*time.Duration] is a location in a store of durations. *)
Definition Store := gmap nat Z.

Record DurationOpt := mkDurationOpt {
  Duration : string;        (* the duration we need to parse *)
  Dst : option nat;         (* where to store the result; [None] is nil *)
  Name : string;            (* a variable name for helpful errors *)
}.

Section ParseDurations.
(** [time.ParseDuration], from Go's library. *)
Variable ParseDuration : string -> Z + string.

(** [fmt.Errorf("error parsing %s.%s: %s", component, arg.Name, err)] *)
Definition parseError (component name err : string) : string :=
  "error parsing " +:+ component +:+ "." +:+ name +:+ ": " +:+ err.

(** [ParseDurations(component, args...)]: each argument is a
    [*DurationOpt], [None] when nil.  The store is returned as the call
    left it, also when it returns an error or panics. *)
Fixpoint ParseDurations (component : string) (args : list (option DurationOpt))
    (σ : Store) : Store * Outcome (option string) :=
  match args with
  | [] => (σ, Returned None)
  | None :: _ => (σ, Panic)
  | Some arg :: args =>
    if bool_decide (Duration arg = "") then
      (* let the destination field stay at its default *)
      ParseDurations component args σ
    else
      match ParseDuration (Duration arg) with
      | inr err => (σ, Returned (Some (parseError component (Name arg) err)))
      | inl t =>
        match Dst arg with
        | None => (σ, Panic)
        | Some l => ParseDurations component args (<[l := t]> σ)
        end
      end
  end.

(** The argument is handled without error or panic: it is not nil, and its
    duration is empty, or parses and has somewhere to go. *)
Definition handled (a : option DurationOpt) : Prop :=
  exists arg, a = Some arg /\
    (Duration arg = ""
     \/ exists t l, ParseDuration (Duration arg) = inl t /\ Dst arg = Some l).

(** The argument writes to location [l] when it is reached. *)
Definition targets (l : nat) (a : option DurationOpt) : Prop :=
  exists arg, a = Some arg /\ Duration arg <> "" /\ Dst arg = Some l.
End ParseDurations.

(** ** [Saver] *)

(** A [chan struct{}]: its capacity and the number of signals buffered. *)
Record Chan := mkChan {
  capacity : nat;
  buffered : nat;
}.

Record Saver := mkSaver {
  save : option Chan;       (* [None]: the channel is nil *)
  BaseDir : string;
}.

(** [NotifySave]: a send that does not block.  [listening] says whether a
    receiver is blocked on the channel at this moment, in which case the
    signal goes to it directly; otherwise it is buffered while there is
    room, and else dropped with a warning.  Returns the warnings logged. *)
Definition NotifySave (listening : bool) (sv : Saver) : Saver * list string :=
  let ch := match save sv with
            | None => {| capacity := 10; buffered := 0 |}
            | Some ch => ch
            end in
  if listening then
    ({| save := Some ch; BaseDir := BaseDir sv |}, [])
  else if bool_decide (buffered ch < capacity ch)%nat then
    ({| save := Some {| capacity := capacity ch; buffered := S (buffered ch) |};
        BaseDir := BaseDir sv |}, [])
  else
    ({| save := Some ch; BaseDir := BaseDir sv |},
     ["configuration save channel full"%string]).

(** [SaveCh]: the channel, made without a buffer when there is none yet. *)
Definition SaveCh (sv : Saver) : Saver * Chan :=
  match save sv with
  | None =>
    let ch := {| capacity := 0; buffered := 0 |} in
    ({| save := Some ch; BaseDir := BaseDir sv |}, ch)
  | Some ch => (sv, ch)
  end.

(** [SetBaseDir] *)
Definition SetBaseDir (dir : string) (sv : Saver) : Saver :=
  {| save := save sv; BaseDir := dir |}.

(** A receive from the channel of [SaveCh] that finds a buffered signal. *)
Definition receive (sv : Saver) : Saver :=
  match save sv with
  | Some ch => {| save := Some {| capacity := capacity ch; buffered := pred (buffered ch) |};
                  BaseDir := BaseDir sv |}
  | None => sv
  end.

(** What a program does with a [Saver], one step at a time. *)
Inductive Op :=
| OpNotifySave (listening : bool)
| OpSaveCh
| OpReceive
| OpSetBaseDir (dir : string).

Definition step (sv : Saver) (op : Op) : Saver :=
  match op with
  | OpNotifySave listening => (NotifySave listening sv).1
  | OpSaveCh => (SaveCh sv).1
  | OpReceive => receive sv
  | OpSetBaseDir dir => SetBaseDir dir sv
  end.

(** The warnings of a run of [NotifySave] calls with nobody listening. *)
Fixpoint notifyAll (n : nat) (sv : Saver) : Saver * list string :=
  match n with
  | O => (sv, [])
  | S n =>
    let '(sv, warn1) := NotifySave false sv in
    let '(sv, warn2) := notifyAll n sv in
    (sv, warn1 ++ warn2)
  end.

End config.

(** A stand-in for [time.ParseDuration] that knows a few durations, in
    nanoseconds, and refuses everything else. *)
Module RefTime.

Definition ParseDuration (s : string) : Z + string :=
  if bool_decide (s = "1s") then inl 1000000000
  else if bool_decide (s = "30s") then inl 30000000000
  else if bool_decide (s = "5m") then inl 300000000000
  else inr ("time: invalid duration " +:+ s).

End RefTime.

(** * Properties *)

(** Unfolds the monad and the call wrappers of a command. *)
Ltac unfold_cmd :=
  unfold restoreStateFromDisk, upgrade, export, exportState, stateImport,
    validateVersion, saveWithPeers, loadConfigs, callLastStateRaw, callReadAll,
    callUnmarshal, callMigrate, callAdd, callLoadPeerstore, callSnapshotSave,
    logger, bind, ret, emit in *.

(** Brings a trace [((tr ++ [a]) ++ [b]) ++ ...] into the form [tr ++ evs]
    and reads off [since]. *)
Ltac settle_trace :=
  cbn [fst snd trace loads]; unfold since; cbn [fst snd trace loads];
  rewrite <- ?(assoc_L (++)); rewrite ?drop_app_length, ?drop_ge by lia;
  cbn [app omap option_fmap option_map fmap mbind].

Section RestoreFacts.
Context {Pin MapState : Type}.
Context `{!mapstate.State Pin MapState} `{!json.Codec Pin}.
Variable env : Env MapState.
Implicit Types (w : World Pin MapState) (st : MapState) (r : ioReader).

Lemma since_app w tr evs :
  since w {| loads := tr; trace := trace w ++ evs |} = evs.
Proof. unfold since; cbn. by rewrite drop_app_length. Qed.

(** Where [restoreStateFromDisk] leaves the world: one load of the
    configuration and no call other than reads. *)
Lemma restore_world w :
  exists evs,
    (restoreStateFromDisk env w).2 = {| loads := S (loads w); trace := trace w ++ evs |}
    /\ saves evs = [] /\ adds evs = [] /\ logged evs = [].
Proof.
  unfold_cmd. repeat case_match; simplify_eq; cbn [fst snd loads trace];
    rewrite <- ?(assoc_L (++)); eexists; (split; [reflexivity|]); done.
Qed.

(** A nil state comes with an error, and an error with a nil state. *)
Lemma restore_state_or_error w :
  match (restoreStateFromDisk env w).1 with
  | (Some _, _, None) => True
  | (None, false, Some _) => True
  | _ => False
  end.
Proof. unfold_cmd. repeat case_match; simplify_eq; done. Qed.

(** Without a snapshot the answer is [errNoSnapshot], whatever error the
    snapshot store reported along with it. *)
Lemma restore_absent w cfgs r err :
  LoadJSONFileAndEnv env (loads w) = (cfgs, None) ->
  LastStateRaw env (consensusCfg cfgs) = (r, false, err) ->
  (restoreStateFromDisk env w).1 = (None, false, Some errNoSnapshot).
Proof.
  intros Hcfg Hsnap. unfold_cmd. rewrite Hcfg; cbn. by rewrite Hsnap.
Qed.

(** With a snapshot, an error of the store or of reading the stream is
    returned as it is. *)
Lemma restore_read_error w cfgs r err full e :
  LoadJSONFileAndEnv env (loads w) = (cfgs, None) ->
  LastStateRaw env (consensusCfg cfgs) = (r, true, err) ->
  err = Some e \/ (err = None /\ ioutil.ReadAll r = (full, Some e)) ->
  (restoreStateFromDisk env w).1 = (None, false, Some (External e)).
Proof.
  intros Hcfg Hsnap [-> | [-> Hread]]; unfold_cmd; rewrite Hcfg; cbn;
    rewrite Hsnap; cbn; [done|]. by rewrite Hread.
Qed.

(** C1.  A snapshot that the current decoder accepts is returned as decoded,
    with [current = true], when its version is [mapstate.Version].
    Otherwise [Migrate] is run on a new reader over the same bytes, and the
    state it leaves is returned with [current = false]. *)
Theorem restore_decodable w cfgs r full st1 r1 :
  LoadJSONFileAndEnv env (loads w) = (cfgs, None) ->
  LastStateRaw env (consensusCfg cfgs) = (r, true, None) ->
  ioutil.ReadAll r = (full, None) ->
  mapstate.Unmarshal mapstate.NewMapState (bytes_pkg.NewReader full) = (st1, r1, None) ->
  (mapstate.GetVersion st1 = mapstate.Version ->
     (restoreStateFromDisk env w).1 = (Some st1, true, None) /\
     reads (since w (restoreStateFromDisk env w).2) =
       [ReadAllOf r; UnmarshalOf (bytes_pkg.NewReader full)]) /\
  (mapstate.GetVersion st1 <> mapstate.Version ->
     reads (since w (restoreStateFromDisk env w).2) =
       [ReadAllOf r; UnmarshalOf (bytes_pkg.NewReader full);
        MigrateOf (bytes_pkg.NewReader full)] /\
     forall st2 r2,
       mapstate.Migrate st1 (bytes_pkg.NewReader full) = (st2, r2, None) ->
       (restoreStateFromDisk env w).1 = (Some st2, false, None)).
Proof.
  intros Hcfg Hsnap Hread Hdec. unfold_cmd.
  rewrite Hcfg; cbn. rewrite Hsnap; cbn. rewrite Hread; cbn. rewrite Hdec; cbn.
  split; intros Hv.
  - rewrite bool_decide_eq_true_2 by done. cbn. split; [done|]. by settle_trace.
  - rewrite bool_decide_eq_false_2 by done. cbn.
    destruct (mapstate.Migrate st1 _) as [[st2 r2] [e|]] eqn:Hmig; cbn.
    + split; [by settle_trace|]. intros ?? [=].
    + split; [by settle_trace|]. by intros ?? [= -> _].
Qed.

(** C8.  When the decoder or the migration reports an error,
    [restoreStateFromDisk] returns that error with a nil state. *)
Theorem restore_failure_no_state w cfgs r full e :
  LoadJSONFileAndEnv env (loads w) = (cfgs, None) ->
  LastStateRaw env (consensusCfg cfgs) = (r, true, None) ->
  ioutil.ReadAll r = (full, None) ->
  (exists st1 r1,
      mapstate.Unmarshal mapstate.NewMapState (bytes_pkg.NewReader full)
        = (st1, r1, Some e))
  \/ (exists st1 r1 st2 r2,
      mapstate.Unmarshal mapstate.NewMapState (bytes_pkg.NewReader full)
        = (st1, r1, None)
      /\ mapstate.GetVersion st1 <> mapstate.Version
      /\ mapstate.Migrate st1 (bytes_pkg.NewReader full) = (st2, r2, Some e)) ->
  (restoreStateFromDisk env w).1 = (None, false, Some (External e)).
Proof.
  intros Hcfg Hsnap Hread Hfail. unfold_cmd.
  rewrite Hcfg; cbn. rewrite Hsnap; cbn. rewrite Hread; cbn.
  destruct Hfail as [(st1 & r1 & Hdec) | (st1 & r1 & st2 & r2 & Hdec & Hv & Hmig)];
    rewrite Hdec; cbn; [done|].
  rewrite bool_decide_eq_false_2 by done. cbn. by rewrite Hmig.
Qed.

(** C9.  Once a snapshot stream is at hand, [restoreStateFromDisk] reads it
    with [ReadAll] exactly once.  The decoder, and the migration when it
    runs, each get a reader of their own at offset 0 over the bytes read,
    wherever the decoder left its reader. *)
Theorem restore_reads w cfgs r :
  LoadJSONFileAndEnv env (loads w) = (cfgs, None) ->
  LastStateRaw env (consensusCfg cfgs) = (r, true, None) ->
  (forall full e, ioutil.ReadAll r = (full, Some e) ->
     reads (since w (restoreStateFromDisk env w).2) = [ReadAllOf r])
  /\ (forall full st1 r1 err1,
     ioutil.ReadAll r = (full, None) ->
     mapstate.Unmarshal mapstate.NewMapState (bytes_pkg.NewReader full)
       = (st1, r1, err1) ->
     buf (bytes_pkg.NewReader full) = full
     /\ pos (bytes_pkg.NewReader full) = 0%nat
     /\ reads (since w (restoreStateFromDisk env w).2)
        = ReadAllOf r :: UnmarshalOf (bytes_pkg.NewReader full)
            :: match err1 with
               | Some _ => []
               | None =>
                 if bool_decide (mapstate.GetVersion st1 = mapstate.Version)
                 then []
                 else [MigrateOf (bytes_pkg.NewReader full)]
               end).
Proof.
  intros Hcfg Hsnap. split.
  - intros full e Hread. unfold_cmd.
    rewrite Hcfg; cbn. rewrite Hsnap; cbn. rewrite Hread; cbn. by settle_trace.
  - intros full st1 r1 err1 Hread Hdec. split; [done|]. split; [done|]. unfold_cmd.
    rewrite Hcfg; cbn. rewrite Hsnap; cbn. rewrite Hread; cbn. rewrite Hdec; cbn.
    destruct err1 as [e|]; cbn; [by settle_trace|].
    case_bool_decide; cbn; [by settle_trace|].
    destruct (mapstate.Migrate _ _) as [[st2 r2] [e|]]; cbn; by settle_trace.
Qed.

(** C10.  When [restoreStateFromDisk] reports the current version,
    [upgrade] returns nil and [raft.SnapshotSave] is not called. *)
Theorem upgrade_current_noop w (newState : option MapState) w' :
  restoreStateFromDisk env w = ((newState, true, None), w') ->
  (upgrade env w).1 = None
  /\ saves (since w (upgrade env w).2) = []
  /\ saves (trace (upgrade env w).2) = saves (trace w).
Proof.
  intros Hres. destruct (restore_world w) as (evs & Hw & Hsav & _).
  rewrite Hres in Hw; cbn in Hw; subst w'.
  unfold upgrade, bind. rewrite Hres. unfold logger, emit, ret; cbn.
  split; [done|]. rewrite <- (assoc_L (++)). unfold since; cbn.
  rewrite drop_app_length. unfold saves in *.
  rewrite !omap_app, Hsav. cbn. by rewrite !app_nil_r.
Qed.

End RestoreFacts.

Section CheckAndImportFacts.
Context {Pin MapState : Type}.
Context `{!mapstate.State Pin MapState} `{!json.Codec Pin}.
Variable env : Env MapState.
Implicit Types (w : World Pin MapState) (st : MapState) (r : ioReader).

(** C2.  [validateVersion] returns nil exactly when there is no snapshot
    and no error, or there is a snapshot, it was read and decoded without
    error, and its version is [mapstate.Version]. *)
Theorem validateVersion_passes cCfg w :
  (validateVersion env cCfg w).1 = None <->
  (exists r, LastStateRaw env cCfg = (r, false, None))
  \/ (exists r st r',
        LastStateRaw env cCfg = (r, true, None)
        /\ mapstate.Unmarshal mapstate.NewMapState r = (st, r', None)
        /\ mapstate.GetVersion st = mapstate.Version).
Proof.
  unfold_cmd.
  destruct (LastStateRaw env cCfg) as [[r [|]] [e|]] eqn:Hsnap; cbn.
  - split; [done|]. intros [(? & [=]) | (? & ? & ? & [=] & _)].
  - destruct (mapstate.Unmarshal _ r) as [[st r'] [e2|]] eqn:Hdec; cbn.
    + split; [done|]. intros [(? & [=]) | (? & ? & ? & [= <-] & Hd & _)].
      rewrite Hdec in Hd. done.
    + case_bool_decide as Hv; cbn.
      * split; [done|]. intros [(? & [=]) | (? & ? & ? & [= <-] & Hd & Hv')].
        rewrite Hdec in Hd. by simplify_eq.
      * split; [|done]. intros _. right. exists r, st, r'.
        split; [done|]. split; [done|]. by destruct (decide (mapstate.GetVersion st = mapstate.Version)).
  - split; [done|]. intros [(? & [=]) | (? & ? & ? & [=] & _)].
  - split; [|done]. intros _. left. by exists r.
Qed.

(** C6.  With a snapshot present, an error from the snapshot store or from
    the decoder is returned as it is and logged as possible corruption; a
    decoded snapshot of another version gives [errOutdatedState] and the
    guidance to upgrade or to rename the data directory.  The two differ in
    the error returned and in what is logged. *)
Theorem validateVersion_failures cCfg w r err :
  LastStateRaw env cCfg = (r, true, err) ->
  (forall e, err = Some e ->
     (validateVersion env cCfg w).1 = Some (External e)
     /\ logged (since w (validateVersion env cCfg w).2) = [corrupt_after_read])
  /\ (forall st r' e, err = None ->
     mapstate.Unmarshal mapstate.NewMapState r = (st, r', Some e) ->
     (validateVersion env cCfg w).1 = Some (External e)
     /\ logged (since w (validateVersion env cCfg w).2) = [corrupt_unmarshal])
  /\ (forall st r', err = None ->
     mapstate.Unmarshal mapstate.NewMapState r = (st, r', None) ->
     mapstate.GetVersion st <> mapstate.Version ->
     (validateVersion env cCfg w).1 = Some errOutdatedState
     /\ logged (since w (validateVersion env cCfg w).2) = outdated_banner)
  /\ (forall e, External e <> errOutdatedState)
  /\ (forall msgs, msgs = [corrupt_after_read] \/ msgs = [corrupt_unmarshal] ->
     flagsCorruption msgs = true /\ givesGuidance msgs = false)
  /\ flagsCorruption outdated_banner = false
  /\ givesGuidance outdated_banner = true.
Proof.
  intros Hsnap. split_and!.
  - intros e ->. unfold_cmd. rewrite Hsnap; cbn. split; [done|]. by settle_trace.
  - intros st r' e -> Hdec. unfold_cmd. rewrite Hsnap; cbn. rewrite Hdec; cbn.
    split; [done|]. by settle_trace.
  - intros st r' -> Hdec Hv. unfold_cmd. rewrite Hsnap; cbn. rewrite Hdec; cbn.
    rewrite bool_decide_eq_true_2 by done. cbn. split; [done|]. by settle_trace.
  - done.
  - intros msgs [-> | ->]; split; reflexivity.
  - reflexivity.
  - reflexivity.
Qed.

Lemma adds_app (tr1 tr2 : list (Event Pin MapState)) :
  adds (tr1 ++ tr2) = adds tr1 ++ adds tr2.
Proof. apply omap_app. Qed.

Lemma saves_app (tr1 tr2 : list (Event Pin MapState)) :
  saves (tr1 ++ tr2) = saves tr1 ++ saves tr2.
Proof. apply omap_app. Qed.

Lemma adds_calls (pins : list Pin) :
  adds (CallAdd (MapState := MapState) <$> pins) = pins.
Proof. induction pins as [|p pins IH]; cbn; [done|]. by f_equal. Qed.

Lemma saves_calls (pins : list Pin) :
  saves (CallAdd (MapState := MapState) <$> pins) = [].
Proof. induction pins as [|p pins IH]; cbn; done. Qed.

(** The loop when every [Add] succeeds. *)
Lemma addPins_all st pins st' w :
  addedAll st pins = Some st' ->
  addPins st pins w
  = ((st', None), {| loads := loads w; trace := trace w ++ (CallAdd <$> pins) |}).
Proof.
  revert st w. induction pins as [|p pins IH]; intros st w Hall; cbn in *.
  - simplify_eq. unfold ret. destruct w; cbn. by rewrite app_nil_r.
  - unfold_cmd. destruct (mapstate.Add st p) as [st1 [e|]]; [done|].
    rewrite (IH _ _ Hall). cbn. by rewrite <- (assoc_L (++)).
Qed.

(** The loop when the first failing [Add] is the one of [p]. *)
Lemma addPins_first_failure st pre p post st1 st2 e w :
  addedAll st pre = Some st1 ->
  mapstate.Add st1 p = (st2, Some e) ->
  addPins st (pre ++ p :: post) w
  = ((st2, Some e),
     {| loads := loads w; trace := trace w ++ (CallAdd <$> pre ++ [p]) |}).
Proof.
  revert st w. induction pre as [|q pre IH]; intros st w Hpre Hadd; cbn in *.
  - simplify_eq. unfold_cmd. by rewrite Hadd.
  - unfold_cmd. destruct (mapstate.Add st q) as [st' [e'|]]; [done|].
    rewrite (IH _ _ Hpre Hadd). cbn. by rewrite <- (assoc_L (++)).
Qed.

(** C7.  [stateImport] stops at a malformed input and at the first [Add]
    that fails, returns that error, and has then not called
    [raft.SnapshotSave].  Pins are added in the order of the input, none
    left out; only when all were added is the state saved, once. *)
Theorem stateImport_fail_fast r w cfgs :
  LoadJSONFileAndEnv env (loads w) = (cfgs, None) ->
  (forall e, json.Decode r = inr e ->
     (stateImport env r w).1 = Some (External e)
     /\ adds (since w (stateImport env r w).2) = []
     /\ saves (since w (stateImport env r w).2) = [])
  /\ (forall pre p post st1 st2 e,
     json.Decode r = inl (pre ++ p :: post) ->
     addedAll mapstate.NewMapState pre = Some st1 ->
     mapstate.Add st1 p = (st2, Some e) ->
     (stateImport env r w).1 = Some (External e)
     /\ adds (since w (stateImport env r w).2) = pre ++ [p]
     /\ saves (since w (stateImport env r w).2) = [])
  /\ (forall pins st,
     json.Decode r = inl pins ->
     addedAll mapstate.NewMapState pins = Some st ->
     (stateImport env r w).1
       = ext (SnapshotSave env (consensusCfg cfgs) st (raftPeers env cfgs))
     /\ adds (since w (stateImport env r w).2) = pins
     /\ saves (since w (stateImport env r w).2)
        = [(consensusCfg cfgs, st, raftPeers env cfgs)]).
Proof.
  intros Hcfg. split; [|split].
  - intros e Hdec. unfold stateImport, bind, loadConfigs. rewrite Hcfg; cbn.
    rewrite Hdec. unfold ret; cbn. by settle_trace.
  - intros pre p post st1 st2 e Hdec Hpre Hadd.
    unfold stateImport, bind, loadConfigs. rewrite Hcfg; cbn [fst snd trace loads].
    rewrite Hdec, (addPins_first_failure _ _ _ _ _ _ _ _ Hpre Hadd).
    unfold ret; cbn [fst snd trace loads]. split; [done|]. unfold since; cbn [trace].
    rewrite <- (assoc_L (++)), drop_app_length.
    by rewrite adds_app, saves_app, adds_calls, saves_calls.
  - intros pins st Hdec Hall.
    unfold stateImport, bind, loadConfigs. rewrite Hcfg; cbn [fst snd trace loads].
    rewrite Hdec, (addPins_all _ _ _ _ Hall). unfold_cmd; cbn [fst snd trace loads].
    split; [done|]. unfold since; cbn [trace].
    rewrite <- !(assoc_L (++)), drop_app_length.
    rewrite !adds_app, !saves_app, adds_calls, saves_calls. cbn.
    by rewrite app_nil_r.
Qed.

End CheckAndImportFacts.

Section PersistFacts.
Context {Pin MapState : Type}.
Context `{!mapstate.State Pin MapState} `{!json.Codec Pin}.
Variable env : Env MapState.
Implicit Types (w : World Pin MapState) (st : MapState) (r : ioReader).

(** The tail shared by [upgrade] and [stateImport]: one call of
    [raft.SnapshotSave], with the peers of the peerstore followed by the
    node's own identity. *)
Lemma saveWithPeers_run cfgs st w :
  saveWithPeers env cfgs st w
  = (ext (SnapshotSave env (consensusCfg cfgs) st (raftPeers env cfgs)),
     {| loads := loads w;
        trace := trace w ++ [CallLoadPeerstore (PeerstorePath cfgs);
                             CallSnapshotSave (consensusCfg cfgs) st (raftPeers env cfgs)] |}).
Proof. unfold_cmd. cbn. by rewrite <- (assoc_L (++)). Qed.

(** The [raft.SnapshotSave] calls of [upgrade]. *)
Lemma upgrade_saves w :
  saves (since w (upgrade env w).2)
  = match (restoreStateFromDisk env w).1, LoadJSONFileAndEnv env (S (loads w)) with
    | (Some st, false, None), (cfgs, None) => [(consensusCfg cfgs, st, raftPeers env cfgs)]
    | _, _ => []
    end.
Proof.
  destruct (restore_world env w) as (evs & Hw & Hsav & _).
  unfold upgrade, bind.
  destruct (restoreStateFromDisk env w) as [[[newState current] err] w1].
  cbn in Hw; subst w1. cbn [fst]. unfold since.
  destruct err as [e|].
  { unfold ret; cbn. rewrite drop_app_length, Hsav. by repeat case_match. }
  destruct current.
  { unfold logger, emit, ret; cbn. rewrite <- (assoc_L (++)), drop_app_length, saves_app, Hsav.
    by repeat case_match. }
  unfold loadConfigs; cbn [loads trace].
  destruct (LoadJSONFileAndEnv env (S (loads w))) as [cfgs [e|]].
  { unfold ret; cbn. rewrite <- (assoc_L (++)), drop_app_length, saves_app, Hsav.
    by repeat case_match. }
  destruct newState as [st|].
  - rewrite saveWithPeers_run; cbn [snd trace].
    rewrite <- !(assoc_L (++)), drop_app_length, !saves_app, Hsav. done.
  - unfold ret; cbn. rewrite <- (assoc_L (++)), drop_app_length, saves_app, Hsav. done.
Qed.

(** When some [Add] fails, there is a first one. *)
Lemma addedAll_None st pins :
  addedAll st pins = None ->
  exists pre p post st1 st2 e,
    pins = pre ++ p :: post /\ addedAll st pre = Some st1
    /\ mapstate.Add st1 p = (st2, Some e).
Proof.
  revert st. induction pins as [|p pins IH]; intros st Hnone; cbn in *; [done|].
  destruct (mapstate.Add st p) as [st' [e|]] eqn:Hadd.
  - by exists [], p, pins, st, st', e.
  - destruct (IH _ Hnone) as (pre & q & post & st1 & st2 & e & -> & Hpre & Hq).
    exists (p :: pre), q, post, st1, st2, e. cbn. by rewrite Hadd.
Qed.

Lemma stateImport_decode_error r w cfgs e :
  LoadJSONFileAndEnv env (loads w) = (cfgs, None) ->
  json.Decode r = inr e ->
  stateImport env r w
  = (Some (External e),
     {| loads := S (loads w); trace := trace w ++ [CallLoadConfig (loads w)] |}).
Proof.
  intros Hcfg Hdec. unfold stateImport, bind, loadConfigs. rewrite Hcfg; cbn.
  by rewrite Hdec.
Qed.

Lemma stateImport_add_error r w cfgs pre p post st1 st2 e :
  LoadJSONFileAndEnv env (loads w) = (cfgs, None) ->
  json.Decode r = inl (pre ++ p :: post) ->
  addedAll mapstate.NewMapState pre = Some st1 ->
  mapstate.Add st1 p = (st2, Some e) ->
  stateImport env r w
  = (Some (External e),
     {| loads := S (loads w);
        trace := trace w ++ CallLoadConfig (loads w) :: (CallAdd <$> pre ++ [p]) |}).
Proof.
  intros Hcfg Hdec Hpre Hadd.
  unfold stateImport, bind, loadConfigs. rewrite Hcfg; cbn [fst snd trace loads].
  rewrite Hdec, (addPins_first_failure _ _ _ _ _ _ _ _ Hpre Hadd).
  unfold ret; cbn [fst snd trace loads]. by rewrite <- (assoc_L (++)).
Qed.

Lemma stateImport_saved r w cfgs pins st :
  LoadJSONFileAndEnv env (loads w) = (cfgs, None) ->
  json.Decode r = inl pins ->
  addedAll mapstate.NewMapState pins = Some st ->
  stateImport env r w
  = (ext (SnapshotSave env (consensusCfg cfgs) st (raftPeers env cfgs)),
     {| loads := S (loads w);
        trace := trace w ++ CallLoadConfig (loads w) :: (CallAdd <$> pins)
                   ++ [CallLoadPeerstore (PeerstorePath cfgs);
                       CallSnapshotSave (consensusCfg cfgs) st (raftPeers env cfgs)] |}).
Proof.
  intros Hcfg Hdec Hall.
  unfold stateImport, bind, loadConfigs. rewrite Hcfg; cbn [fst snd trace loads].
  rewrite Hdec, (addPins_all _ _ _ _ Hall), saveWithPeers_run.
  cbn [fst snd trace loads]. by rewrite <- !(assoc_L (++)).
Qed.

(** The [raft.SnapshotSave] calls of [stateImport]. *)
Lemma stateImport_saves r w :
  saves (since w (stateImport env r w).2)
  = match LoadJSONFileAndEnv env (loads w), json.Decode r with
    | (cfgs, None), inl pins =>
      match addedAll mapstate.NewMapState pins with
      | Some st => [(consensusCfg cfgs, st, raftPeers env cfgs)]
      | None => []
      end
    | _, _ => []
    end.
Proof.
  destruct (LoadJSONFileAndEnv env (loads w)) as [cfgs [e|]] eqn:Hcfg.
  { unfold stateImport, bind, loadConfigs. rewrite Hcfg. unfold ret, since; cbn.
    by rewrite drop_app_length. }
  destruct (json.Decode r) as [pins|e] eqn:Hdec.
  - destruct (addedAll mapstate.NewMapState pins) as [st|] eqn:Hall.
    + rewrite (stateImport_saved _ _ _ _ _ Hcfg Hdec Hall). unfold since; cbn [snd trace].
      rewrite drop_app_length. change (?x :: ?l ++ ?k) with ([x] ++ l ++ k).
      by rewrite !saves_app, saves_calls.
    + destruct (addedAll_None _ _ Hall) as (pre & p & post & st1 & st2 & e & -> & Hpre & Hadd).
      rewrite (stateImport_add_error _ _ _ _ _ _ _ _ _ Hcfg Hdec Hpre Hadd).
      unfold since; cbn [snd trace]. rewrite drop_app_length.
      change (?x :: ?l) with ([x] ++ l). by rewrite saves_app, saves_calls.
  - rewrite (stateImport_decode_error _ _ _ _ Hcfg Hdec). unfold since; cbn.
    by rewrite drop_app_length.
Qed.

(** C3.  Every call of [raft.SnapshotSave], from [upgrade] as from
    [stateImport], gets the peers of the peerstore followed by the node's
    own identity; the identity is in the list also when the peerstore is
    empty.  [upgrade] makes that call whenever it has a migrated state and
    the configuration loads, and [stateImport] whenever the configuration
    loads, the input decodes and every pin is added. *)
Theorem persist_membership r w :
  (forall c st peers cfgs,
     (c, st, peers) ∈ saves (since w (upgrade env w).2)
       /\ cfgs = (LoadJSONFileAndEnv env (S (loads w))).1
     \/ (c, st, peers) ∈ saves (since w (stateImport env r w).2)
       /\ cfgs = (LoadJSONFileAndEnv env (loads w)).1 ->
     peers = PeersFromMultiaddrs env (LoadPeerstore env (PeerstorePath cfgs))
               ++ [clusterID cfgs]
     /\ clusterID cfgs ∈ peers
     /\ (PeersFromMultiaddrs env (LoadPeerstore env (PeerstorePath cfgs)) = [] ->
         peers = [clusterID cfgs]))
  /\ (forall st cfgs,
     (restoreStateFromDisk env w).1 = (Some st, false, None) ->
     LoadJSONFileAndEnv env (S (loads w)) = (cfgs, None) ->
     saves (since w (upgrade env w).2)
     = [(consensusCfg cfgs, st,
         PeersFromMultiaddrs env (LoadPeerstore env (PeerstorePath cfgs))
           ++ [clusterID cfgs])])
  /\ (forall pins st cfgs,
     LoadJSONFileAndEnv env (loads w) = (cfgs, None) ->
     json.Decode r = inl pins ->
     addedAll mapstate.NewMapState pins = Some st ->
     saves (since w (stateImport env r w).2)
     = [(consensusCfg cfgs, st,
         PeersFromMultiaddrs env (LoadPeerstore env (PeerstorePath cfgs))
           ++ [clusterID cfgs])]).
Proof.
  assert (Hpeers : forall cfgs peers, peers = raftPeers env cfgs ->
    peers = PeersFromMultiaddrs env (LoadPeerstore env (PeerstorePath cfgs))
              ++ [clusterID cfgs]
    /\ clusterID cfgs ∈ peers
    /\ (PeersFromMultiaddrs env (LoadPeerstore env (PeerstorePath cfgs)) = [] ->
        peers = [clusterID cfgs])).
  { intros cfgs peers ->. unfold raftPeers. split; [done|]. split.
    - apply elem_of_app. right. by apply list_elem_of_singleton.
    - by intros ->. }
  split_and!.
  - intros c st peers cfgs [[Hin ->] | [Hin ->]]; apply Hpeers.
    + rewrite upgrade_saves in Hin.
      destruct (restoreStateFromDisk env w).1 as [[[st'|] [|]] [e|]];
        destruct (LoadJSONFileAndEnv env (S (loads w))) as [cfgs [e'|]];
        cbn in Hin; try by apply elem_of_nil in Hin.
      apply list_elem_of_singleton in Hin. by simplify_eq.
    + rewrite stateImport_saves in Hin.
      destruct (LoadJSONFileAndEnv env (loads w)) as [cfgs [e'|]];
        destruct (json.Decode r) as [pins|e]; cbn in Hin;
        try by apply elem_of_nil in Hin.
      destruct (addedAll mapstate.NewMapState pins) as [st'|];
        [|by apply elem_of_nil in Hin].
      apply list_elem_of_singleton in Hin. by simplify_eq.
  - intros st cfgs Hres Hcfg. by rewrite upgrade_saves, Hres, Hcfg.
  - intros pins st cfgs Hcfg Hdec Hall.
    by rewrite stateImport_saves, Hcfg, Hdec, Hall.
Qed.

Section RoundTrip.
Context {Cid : Type} (cidOf : Pin -> Cid).
Context `{!StateLaws cidOf} `{!CodecLaws Pin}.

(** Adding pins with pairwise distinct identifiers, none of them in the
    state yet, succeeds and adds exactly these records. *)
Lemma addedAll_fresh pins st :
  NoDup (cidOf <$> pins) ->
  (forall p, p ∈ pins -> cidOf p ∉ cidOf <$> mapstate.List st) ->
  exists st', addedAll st pins = Some st'
    /\ forall q, q ∈ mapstate.List st' <-> q ∈ pins \/ q ∈ mapstate.List st.
Proof.
  revert st. induction pins as [|p pins IH]; intros st Hnd Hfresh; cbn.
  - exists st. split; [done|]. intros q. rewrite elem_of_nil. tauto.
  - apply NoDup_cons in Hnd as [Hp Hnd].
    destruct (add_fresh st p) as (st1 & Hadd & Hst1).
    { apply Hfresh. by left. }
    rewrite Hadd. destruct (IH st1 Hnd) as (st' & Hall & Hst').
    { intros q Hq Hin. apply list_elem_of_fmap in Hin as (q' & Hcid & Hq').
      apply Hst1 in Hq' as [-> | Hq'].
      - apply Hp. rewrite <- Hcid. by apply list_elem_of_fmap_2.
      - apply (Hfresh q); [by right|]. rewrite Hcid. by apply list_elem_of_fmap_2. }
    exists st'. split; [done|]. intros q.
    rewrite Hst', Hst1, elem_of_cons. tauto.
Qed.

(** C4.  What [exportState] writes, read back by [stateImport], is saved as
    a state with the same records, for an empty state as for any other:
    given that the container lists records with distinct identifiers and
    accepts new ones, and that the JSON decoder reads back what the encoder
    wrote, newline included. *)
Theorem export_import_round_trip st (sink0 sink : ioWriter) wa wb cfgs :
  written sink0 = [] ->
  (exportState st sink0 wa).1 = (sink, None) ->
  LoadJSONFileAndEnv env (loads wb) = (cfgs, None) ->
  exists st',
    saves (since wb (stateImport env (bytes_pkg.NewReader (written sink)) wb).2)
    = [(consensusCfg cfgs, st', raftPeers env cfgs)]
    /\ sameRecords st' st.
Proof.
  intros Hempty Hexp Hcfg.
  unfold exportState, json.Encode, ret in Hexp.
  destruct (json.MarshalIndent _ _ _) as [b|e] eqn:Hmar; [|done].
  unfold io.Write in Hexp. destruct (wfail sink0) as [e|]; [done|].
  cbn in Hexp. injection Hexp as <-. cbn [written]. rewrite Hempty, app_nil_l.
  apply decode_encoded in Hmar.
  destruct (addedAll_fresh (mapstate.List st) mapstate.NewMapState)
    as (st' & Hall & Hst').
  { apply list_nodup. }
  { intros p _. rewrite list_new. cbn. apply not_elem_of_nil. }
  exists st'. split.
  - rewrite stateImport_saves, Hcfg, Hmar, Hall. done.
  - intros p. rewrite Hst', list_new, elem_of_nil. tauto.
Qed.

End RoundTrip.
End PersistFacts.

(** ** The reference collaborators keep the contracts *)

Lemma Ref_decode_encode (pins : list Ref.Pin) (b : bytes) :
  Ref.encodePins pins = Some b -> Ref.decodePins b = Some pins.
Proof.
  revert b. induction pins as [|[c r] pins IH]; intros b Henc; cbn in *.
  - by simplify_eq.
  - destruct (Byte.of_N c) as [bc|] eqn:Hc; [|done].
    destruct (Byte.of_N r) as [br|] eqn:Hr; [|done].
    destruct (Ref.encodePins pins) as [b'|]; [|done].
    simplify_eq. cbn. rewrite (IH b' eq_refl). cbn.
    apply Byte.to_of_N in Hc, Hr. by rewrite Hc, Hr.
Qed.

Lemma Ref_state_laws : StateLaws Ref.cidOf.
Proof.
  split.
  - cbn. unfold Ref.List. cbn. apply map_to_list_empty.
  - intros st. cbn. unfold Ref.List. apply NoDup_fst_map_to_list.
  - intros st [c r] Hfresh. cbn in *. unfold Ref.Add, Ref.List in *. cbn in *.
    eexists. split; [reflexivity|]. cbn.
    assert (Hnone : Ref.PinMap st !! c = None).
    { destruct (Ref.PinMap st !! c) as [r'|] eqn:Hc; [|done]. exfalso.
      apply Hfresh, list_elem_of_fmap. exists (c, r'). split; [done|].
      by apply elem_of_map_to_list. }
    intros q. rewrite (map_to_list_insert _ _ _ Hnone), elem_of_cons. tauto.
Qed.

Lemma Ref_decodeValue_encode (pins : list Ref.Pin) (b : bytes) :
  Ref.encodePins pins = Some b ->
  Ref.decodeValue (b ++ [json.newline]) = Some pins.
Proof.
  revert b. induction pins as [|[c r] pins IH]; intros b Henc; cbn in *.
  - by simplify_eq.
  - destruct (Byte.of_N c) as [bc|] eqn:Hc; [|done].
    destruct (Byte.of_N r) as [br|] eqn:Hr; [|done].
    destruct (Ref.encodePins pins) as [b'|]; [|done].
    simplify_eq. specialize (IH b' eq_refl).
    change (Ref.decodeValue ((bc :: br :: b') ++ [json.newline]))
      with (cons (Byte.to_N bc, Byte.to_N br) <$> Ref.decodeValue (b' ++ [json.newline])).
    rewrite IH. cbn. apply Byte.to_of_N in Hc, Hr. by rewrite Hc, Hr.
Qed.

Lemma Ref_codec_laws : CodecLaws Ref.Pin.
Proof.
  split. intros pins prefix indent b. cbn.
  destruct (Ref.encodePins pins) as [b'|] eqn:Henc; [|done].
  intros [= <-]. unfold ioutil.ReadAll, bytes_pkg.NewReader. cbn [buf pos fail].
  by rewrite drop_0, (Ref_decodeValue_encode _ _ Henc).
Qed.

(** ** The commands on concrete inputs *)

(** C5.  The snapshot store fails to open and reports that error with
    [snapExists = false].  [restoreStateFromDisk] returns [errNoSnapshot] in
    its place; [validateVersion], on the same answer, returns the error of
    the store. *)
Theorem restore_masks_store_error :
  LastStateRaw (Ref.world Ref.unreadable []) (consensusCfg Ref.cfg)
    = (Ref.stream [], false, Some "open raft/snapshots: permission denied"%string)
  /\ (restoreStateFromDisk (Ref.world Ref.unreadable []) start).1
     = (None, false, Some errNoSnapshot)
  /\ (validateVersion (Ref.world Ref.unreadable []) (consensusCfg Ref.cfg) start).1
     = Some (External "open raft/snapshots: permission denied").
Proof. split_and!; reflexivity. Qed.

(** Spec scenario: a version 1 snapshot without pins comes back as a
    version 2 state without pins, [current = false]. *)
Lemma restore_decodable_witness :
  (restoreStateFromDisk (Ref.world (Ref.present Ref.snapV1empty) []) start).1
  = (Some {| Ref.version := 2; Ref.PinMap := ∅ |}, false, None).
Proof.
  destruct (restore_decodable (Ref.world (Ref.present Ref.snapV1empty) []) start
              Ref.cfg (Ref.stream Ref.snapV1empty) Ref.snapV1empty
              {| Ref.version := 1; Ref.PinMap := ∅ |}
              (Ref.atEnd (Ref.stream Ref.snapV1empty))) as [_ Hold];
    [reflexivity..|].
  destruct Hold as [_ Hmig]; [by cbn|].
  apply (Hmig {| Ref.version := 2; Ref.PinMap := ∅ |}
              (Ref.atEnd (Ref.stream Ref.snapV1empty))).
  reflexivity.
Defined.

(** A version 3 snapshot decodes as "not current" and cannot be migrated. *)
Lemma restore_failure_no_state_witness :
  (restoreStateFromDisk (Ref.world (Ref.present Ref.snapV3) []) start).1
  = (None, false, Some (External "unsupported state version")).
Proof.
  apply (restore_failure_no_state (Ref.world (Ref.present Ref.snapV3) []) start
           Ref.cfg (Ref.stream Ref.snapV3) Ref.snapV3); [reflexivity..|].
  right. exists {| Ref.version := 3; Ref.PinMap := ∅ |}, (Ref.atEnd (Ref.stream Ref.snapV3)).
  exists {| Ref.version := 3; Ref.PinMap := ∅ |}, (Ref.atEnd (Ref.stream Ref.snapV3)).
  split; [reflexivity|]. split; [by cbn|]. reflexivity.
Defined.

(** The reference decoder leaves its reader at the end (offset 3); the
    migration still starts at offset 0. *)
Lemma restore_reads_witness :
  pos (Ref.atEnd (Ref.stream Ref.snapV1)) = 3%nat
  /\ buf (bytes_pkg.NewReader Ref.snapV1) = Ref.snapV1
  /\ pos (bytes_pkg.NewReader Ref.snapV1) = 0%nat
  /\ reads (since start
             (restoreStateFromDisk (Ref.world (Ref.present Ref.snapV1) []) start).2)
     = [ReadAllOf (Ref.stream Ref.snapV1);
        UnmarshalOf (bytes_pkg.NewReader Ref.snapV1);
        MigrateOf (bytes_pkg.NewReader Ref.snapV1)].
Proof.
  split; [reflexivity|].
  destruct (restore_reads (Ref.world (Ref.present Ref.snapV1) []) start
              Ref.cfg (Ref.stream Ref.snapV1)) as [_ Hok]; [reflexivity..|].
  apply (Hok Ref.snapV1 {| Ref.version := 1; Ref.PinMap := ∅ |}
             (Ref.atEnd (Ref.stream Ref.snapV1)) None); reflexivity.
Defined.

Lemma upgrade_current_noop_witness :
  (upgrade (Ref.world (Ref.present Ref.snapV2) ["QmA"%string]) start).1 = None
  /\ saves (since start (upgrade (Ref.world (Ref.present Ref.snapV2) ["QmA"%string]) start).2) = []
  /\ saves (trace (upgrade (Ref.world (Ref.present Ref.snapV2) ["QmA"%string]) start).2)
     = saves (trace (start (Pin := Ref.Pin))).
Proof.
  eapply (upgrade_current_noop (Ref.world (Ref.present Ref.snapV2) ["QmA"%string]) start).
  vm_compute. reflexivity.
Defined.

Lemma validateVersion_failures_witness :
  (validateVersion (Ref.world (Ref.present Ref.snapV1) []) (consensusCfg Ref.cfg) start).1
  = Some errOutdatedState
  /\ logged (since start
       (validateVersion (Ref.world (Ref.present Ref.snapV1) []) (consensusCfg Ref.cfg) start).2)
     = outdated_banner.
Proof.
  destruct (validateVersion_failures (Ref.world (Ref.present Ref.snapV1) [])
              (consensusCfg Ref.cfg) start (Ref.stream Ref.snapV1) None)
    as (_ & _ & Hout & _); [reflexivity|].
  eapply Hout; [reflexivity|reflexivity|by cbn].
Defined.

(** A stream that ends in the middle of the second pin is refused, and
    nothing is added or saved. *)
Lemma stateImport_fail_fast_witness :
  (stateImport (Ref.world Ref.absent []) (Ref.stream [x07; x02; x09]) start).1
  = Some (External "unexpected end of JSON input")
  /\ adds (since start
       (stateImport (Ref.world Ref.absent []) (Ref.stream [x07; x02; x09]) start).2) = []
  /\ saves (since start
       (stateImport (Ref.world Ref.absent []) (Ref.stream [x07; x02; x09]) start).2) = [].
Proof.
  destruct (stateImport_fail_fast (Ref.world Ref.absent [])
              (Ref.stream [x07; x02; x09]) start Ref.cfg) as (Hbad & _ & _);
    [reflexivity|].
  apply Hbad. reflexivity.
Defined.

(** With an empty peerstore [upgrade] saves with the node alone as member;
    [stateImport], with one known peer, saves with that peer and the node. *)
Lemma persist_membership_witness :
  saves (since start (upgrade (Ref.world (Ref.present Ref.snapV1empty) []) start).2)
  = [(consensusCfg Ref.cfg, {| Ref.version := 2; Ref.PinMap := ∅ |}, ["QmSelf"%string])]
  /\ saves (since start
       (stateImport (Ref.world Ref.absent ["QmA"%string])
          (Ref.stream [x07; x02; json.newline]) start).2)
     = [(consensusCfg Ref.cfg, {| Ref.version := 2; Ref.PinMap := {[ 7%N := 2%N ]} |},
         ["QmA"%string; "QmSelf"%string])].
Proof.
  split.
  - destruct (persist_membership (Ref.world (Ref.present Ref.snapV1empty) [])
                (Ref.stream []) start) as (_ & Hupgrade & _).
    apply (Hupgrade {| Ref.version := 2; Ref.PinMap := ∅ |} Ref.cfg); reflexivity.
  - destruct (persist_membership (Ref.world Ref.absent ["QmA"%string])
                (Ref.stream [x07; x02; json.newline]) start) as (_ & _ & Himport).
    apply (Himport [(7%N, 2%N)] {| Ref.version := 2; Ref.PinMap := {[ 7%N := 2%N ]} |}
             Ref.cfg); reflexivity.
Defined.

Lemma export_import_round_trip_witness :
  exists st',
    saves (since start
      (stateImport (Ref.world Ref.absent ["QmA"%string])
         (bytes_pkg.NewReader [x09; x03; x07; x02; json.newline]) start).2)
    = [(consensusCfg Ref.cfg, st', raftPeers (Ref.world Ref.absent ["QmA"%string]) Ref.cfg)]
    /\ sameRecords st' {| Ref.version := 2; Ref.PinMap := {[ 7%N := 2%N; 9%N := 3%N ]} |}.
Proof.
  apply (@export_import_round_trip _ _ _ _ (Ref.world Ref.absent ["QmA"%string])
           _ Ref.cidOf Ref_state_laws Ref_codec_laws
           {| Ref.version := 2; Ref.PinMap := {[ 7%N := 2%N; 9%N := 3%N ]} |}
           {| written := []; wfail := None |}
           {| written := [x09; x03; x07; x02; json.newline]; wfail := None |}
           start start Ref.cfg); reflexivity.
Defined.

(** Further runs of the reference world. *)

Example upgrade_outdated_saves_self :
  saves (since start (upgrade (Ref.world (Ref.present Ref.snapV1) []) start).2)
  = [(consensusCfg Ref.cfg,
      {| Ref.version := 2; Ref.PinMap := {[ 7%N := 0%N; 9%N := 0%N ]} |},
      ["QmSelf"%string])].
Proof. reflexivity. Qed.

Example validateVersion_truncated :
  (validateVersion (Ref.world (Ref.present Ref.snapTruncated) []) (consensusCfg Ref.cfg) start).1
  = Some (External "unexpected EOF")
  /\ (validateVersion (Ref.world Ref.absent []) (consensusCfg Ref.cfg) start).1 = None.
Proof. split; reflexivity. Qed.

(** * Further properties of state.go *)

Section CommandFacts.
Context {Pin MapState : Type}.
Context `{!mapstate.State Pin MapState} `{!json.Codec Pin}.
Variable env : Env MapState.
Implicit Types (w : World Pin MapState) (st : MapState) (r : ioReader).

(** Where [export] leaves the world: where [restoreStateFromDisk] left it. *)
Lemma export_world sink w :
  (export env sink w).2 = (restoreStateFromDisk env w).2.
Proof.
  unfold export, bind.
  destruct (restoreStateFromDisk env w) as [[[ost cur] [e|]] w1]; [done|].
  destruct ost as [st|]; [|done].
  unfold exportState. by destruct (json.Encode _ _ _ _).
Qed.

(** What [export] returns, given what [restoreStateFromDisk] returned. *)
Lemma export_result sink w st cur :
  (restoreStateFromDisk env w).1 = (Some st, cur, None) ->
  (export env sink w).1
  = ((json.Encode sink "" "    " (mapstate.List st)).1,
     ext (json.Encode sink "" "    " (mapstate.List st)).2).
Proof.
  intros Hres. unfold export, bind.
  destruct (restoreStateFromDisk env w) as [res w1]. cbn in Hres. subst res.
  unfold exportState. by destruct (json.Encode _ _ _ _).
Qed.

(** What [upgrade] returns, and where it leaves the world, when the state
    had to be migrated and the configuration loads a second time. *)
Lemma upgrade_migrated w st w1 cfgs :
  restoreStateFromDisk env w = ((Some st, false, None), w1) ->
  LoadJSONFileAndEnv env (loads w1) = (cfgs, None) ->
  (upgrade env w).1
  = ext (SnapshotSave env (consensusCfg cfgs) st (raftPeers env cfgs)).
Proof.
  intros Hres Hcfg. unfold upgrade, bind. rewrite Hres.
  unfold loadConfigs. rewrite Hcfg. by rewrite saveWithPeers_run.
Qed.

(** A state returned as current has the current version. *)
Lemma restore_current_version w st :
  (restoreStateFromDisk env w).1 = (Some st, true, None) ->
  mapstate.GetVersion st = mapstate.Version.
Proof.
  unfold_cmd.
  destruct (LoadJSONFileAndEnv env (loads w)) as [cfgs [e|]]; cbn; [done|].
  destruct (LastStateRaw env (consensusCfg cfgs)) as [[r [|]] [e|]]; cbn; try done.
  destruct (ioutil.ReadAll r) as [full [e|]]; cbn; [done|].
  destruct (mapstate.Unmarshal _ _) as [[st1 r1] [e|]]; cbn; [done|].
  case_bool_decide as Hv; cbn; [by intros [= <-]|].
  by destruct (mapstate.Migrate _ _) as [[st2 r2] [e|]].
Qed.

(** X1.  The commands that read the state, [restoreStateFromDisk],
    [export] and [validateVersion], never call [raft.SnapshotSave] and never
    add a pin. *)
Theorem read_commands_never_write sink cCfg w :
  saves (since w (restoreStateFromDisk env w).2) = []
  /\ adds (since w (restoreStateFromDisk env w).2) = []
  /\ saves (since w (export env sink w).2) = []
  /\ adds (since w (export env sink w).2) = []
  /\ saves (since w (validateVersion env cCfg w).2) = []
  /\ adds (since w (validateVersion env cCfg w).2) = [].
Proof.
  rewrite export_world.
  destruct (restore_world env w) as (evs & -> & Hsav & Hadd & _).
  rewrite since_app. split_and!; try done.
  - unfold validateVersion, outdated_banner; cbn [logLines]. unfold_cmd.
    repeat case_match; simplify_eq; by settle_trace.
  - unfold validateVersion, outdated_banner; cbn [logLines]. unfold_cmd.
    repeat case_match; simplify_eq; by settle_trace.
Qed.

(** X2.  What [restoreStateFromDisk] returns is well formed: a state
    exactly when there is no error; [current = true] only with a state
    whose version is [mapstate.Version]; and the configuration was loaded
    once. *)
Theorem restore_result_invariant w ost cur err :
  (restoreStateFromDisk env w).1 = (ost, cur, err) ->
  (err = None <-> is_Some ost)
  /\ (cur = true ->
      exists st, ost = Some st /\ err = None
                 /\ mapstate.GetVersion st = mapstate.Version)
  /\ loads (restoreStateFromDisk env w).2 = S (loads w).
Proof.
  intros Hres. split_and!.
  - pose proof (restore_state_or_error env w) as Hshape. rewrite Hres in Hshape.
    destruct ost, cur, err; try done; unfold is_Some; naive_solver.
  - intros ->. pose proof (restore_state_or_error env w) as Hshape.
    rewrite Hres in Hshape. destruct ost as [st|], err as [e|]; try done.
    exists st. split; [done|]. split; [done|]. by apply (restore_current_version w).
  - destruct (restore_world env w) as (evs & -> & _). done.
Qed.

(** X3.  When the snapshot store fails before any snapshot is found,
    [validateVersion] returns the store's error, says so in the log without
    calling the snapshot corrupt, and decodes nothing. *)
Theorem validateVersion_store_error cCfg w r e :
  LastStateRaw env cCfg = (r, false, Some e) ->
  (validateVersion env cCfg w).1 = Some (External e)
  /\ logged (since w (validateVersion env cCfg w).2)
     = ["error before reading latest snapshot."%string]
  /\ flagsCorruption (logged (since w (validateVersion env cCfg w).2)) = false
  /\ reads (since w (validateVersion env cCfg w).2) = [].
Proof.
  intros Hsnap. unfold_cmd. rewrite Hsnap; cbn.
  split; [done|]. by settle_trace.
Qed.

(** X4.  The start-up check and the restore agree.  With a snapshot served
    from its first byte and a configuration that loads, [validateVersion]
    passes exactly when [restoreStateFromDisk] reports the state as
    current. *)
Theorem check_agrees_with_restore w0 w cfgs b :
  LoadJSONFileAndEnv env (loads w) = (cfgs, None) ->
  LastStateRaw env (consensusCfg cfgs) = (bytes_pkg.NewReader b, true, None) ->
  (validateVersion env (consensusCfg cfgs) w0).1 = None
  <-> exists st, (restoreStateFromDisk env w).1 = (Some st, true, None).
Proof.
  intros Hcfg Hsnap. unfold_cmd. rewrite Hcfg; cbn. rewrite Hsnap; cbn.
  unfold ioutil.ReadAll, bytes_pkg.NewReader; cbn. rewrite drop_0.
  fold (bytes_pkg.NewReader b).
  destruct (mapstate.Unmarshal _ _) as [[st1 r1] [e|]]; cbn.
  { split; [done|]. by intros [? ?]. }
  destruct (decide (mapstate.GetVersion st1 = mapstate.Version)) as [Hv|Hv].
  - rewrite bool_decide_eq_false_2 by (by intros ?).
    rewrite bool_decide_eq_true_2 by done. cbn. split; [by eauto|done].
  - rewrite bool_decide_eq_true_2 by done.
    rewrite bool_decide_eq_false_2 by done. cbn. split; [done|].
    destruct (mapstate.Migrate _ _) as [[st2 r2] [e|]]; cbn; by intros [? ?].
Qed.

(** X5.  When [upgrade] returns nil, the state on disk is usable by this
    version: either it was current and nothing was written, or the migrated
    state was handed to [raft.SnapshotSave] once and the save succeeded. *)
Theorem upgrade_nil_sound w :
  (upgrade env w).1 = None ->
  (exists st, (restoreStateFromDisk env w).1 = (Some st, true, None)
              /\ saves (since w (upgrade env w).2) = [])
  \/ (exists st cfgs,
        (restoreStateFromDisk env w).1 = (Some st, false, None)
        /\ LoadJSONFileAndEnv env (S (loads w)) = (cfgs, None)
        /\ saves (since w (upgrade env w).2)
           = [(consensusCfg cfgs, st, raftPeers env cfgs)]
        /\ SnapshotSave env (consensusCfg cfgs) st (raftPeers env cfgs) = None).
Proof.
  intros Hnil. rewrite upgrade_saves.
  pose proof (restore_state_or_error env w) as Hshape.
  destruct (restore_world env w) as (evs & Hw & _).
  destruct (restoreStateFromDisk env w) as [[[ost cur] err] w1] eqn:Hres.
  cbn in Hw, Hshape |- *. subst w1.
  destruct ost as [st|], cur, err as [e|]; try done.
  - left. by exists st.
  - right. destruct (LoadJSONFileAndEnv env (S (loads w))) as [cfgs [e|]] eqn:Hcfg.
    + exfalso. revert Hnil. unfold upgrade, bind. rewrite Hres.
      unfold loadConfigs; cbn. by rewrite Hcfg.
    + exists st, cfgs.
      rewrite (upgrade_migrated _ _ _ _ Hres Hcfg) in Hnil.
      split; [done|]. split; [done|]. split; [done|].
      by destruct (SnapshotSave env _ _ _).
  - exfalso. revert Hnil. unfold upgrade, bind. by rewrite Hres.
Qed.

(** X6.  On a fresh node (no snapshot, no error from the store) [upgrade]
    and [export] both fail with [errNoSnapshot]; nothing is saved and
    nothing is written to the export sink. *)
Theorem fresh_node_no_snapshot sink w cfgs r :
  LoadJSONFileAndEnv env (loads w) = (cfgs, None) ->
  LastStateRaw env (consensusCfg cfgs) = (r, false, None) ->
  (upgrade env w).1 = Some errNoSnapshot
  /\ saves (since w (upgrade env w).2) = []
  /\ (export env sink w).1 = (sink, Some errNoSnapshot).
Proof.
  intros Hcfg Hsnap.
  pose proof (restore_absent env w cfgs r None Hcfg Hsnap) as Hres.
  split_and!.
  - unfold upgrade, bind.
    destruct (restoreStateFromDisk env w) as [res w1]. cbn in Hres. by subst res.
  - by rewrite upgrade_saves, Hres.
  - unfold export, bind.
    destruct (restoreStateFromDisk env w) as [res w1]. cbn in Hres. by subst res.
Qed.

(** X7.  When [stateImport] returns nil, the input decoded to a list of
    pins, each of them was added to a new state, and that state was handed
    to [raft.SnapshotSave] once, successfully. *)
Theorem stateImport_nil_sound r w :
  (stateImport env r w).1 = None ->
  exists cfgs pins st,
    LoadJSONFileAndEnv env (loads w) = (cfgs, None)
    /\ json.Decode r = inl pins
    /\ addedAll mapstate.NewMapState pins = Some st
    /\ adds (since w (stateImport env r w).2) = pins
    /\ saves (since w (stateImport env r w).2)
       = [(consensusCfg cfgs, st, raftPeers env cfgs)]
    /\ SnapshotSave env (consensusCfg cfgs) st (raftPeers env cfgs) = None.
Proof.
  intros Hnil.
  destruct (LoadJSONFileAndEnv env (loads w)) as [cfgs [e|]] eqn:Hcfg.
  { exfalso. revert Hnil. unfold stateImport, bind, loadConfigs. by rewrite Hcfg. }
  destruct (json.Decode r) as [pins|e] eqn:Hdec.
  2:{ by rewrite (stateImport_decode_error _ _ _ _ _ Hcfg Hdec) in Hnil. }
  destruct (addedAll mapstate.NewMapState pins) as [st|] eqn:Hall.
  2:{ destruct (addedAll_None _ _ Hall)
        as (pre & p & post & st1 & st2 & e & -> & Hpre & Hadd).
      by rewrite (stateImport_add_error _ _ _ _ _ _ _ _ _ _ Hcfg Hdec Hpre Hadd) in Hnil. }
  exists cfgs, pins, st. rewrite (stateImport_saved _ _ _ _ _ _ Hcfg Hdec Hall) in Hnil |- *.
  cbn in Hnil. split_and!; try done.
  - unfold since; cbn [snd trace]. rewrite drop_app_length.
    change (?x :: ?l ++ ?k) with ([x] ++ l ++ k).
    rewrite !adds_app, adds_calls. cbn. by rewrite app_nil_r.
  - unfold since; cbn [snd trace]. rewrite drop_app_length.
    change (?x :: ?l ++ ?k) with ([x] ++ l ++ k).
    by rewrite !saves_app, saves_calls.
  - by destruct (SnapshotSave env _ _ _).
Qed.

(** X8.  [stateImport] never looks at the snapshot on disk: it neither
    reads nor decodes one.  An input that holds no pins is not an error: the
    new, empty state is saved. *)
Theorem stateImport_replaces_state r w :
  reads (since w (stateImport env r w).2) = []
  /\ (forall cfgs,
        LoadJSONFileAndEnv env (loads w) = (cfgs, None) ->
        json.Decode r = inl [] ->
        saves (since w (stateImport env r w).2)
        = [(consensusCfg cfgs, mapstate.NewMapState, raftPeers env cfgs)]).
Proof.
  split.
  - destruct (LoadJSONFileAndEnv env (loads w)) as [cfgs [e|]] eqn:Hcfg.
    { unfold stateImport, bind, loadConfigs. rewrite Hcfg. unfold ret. by settle_trace. }
    destruct (json.Decode r) as [pins|e] eqn:Hdec.
    2:{ rewrite (stateImport_decode_error _ _ _ _ _ Hcfg Hdec). by settle_trace. }
    assert (Hcalls : forall l : list Pin,
               reads (CallAdd (MapState := MapState) <$> l) = []).
    { intros l. induction l; cbn; done. }
    destruct (addedAll mapstate.NewMapState pins) as [st|] eqn:Hall.
    + rewrite (stateImport_saved _ _ _ _ _ _ Hcfg Hdec Hall).
      unfold since; cbn [snd trace]. rewrite drop_app_length.
      change (?x :: ?l ++ ?k) with ([x] ++ l ++ k).
      unfold reads. rewrite !omap_app. fold (reads (CallAdd (MapState := MapState) <$> pins)).
      by rewrite Hcalls.
    + destruct (addedAll_None _ _ Hall)
        as (pre & p & post & st1 & st2 & e & -> & Hpre & Hadd).
      rewrite (stateImport_add_error _ _ _ _ _ _ _ _ _ _ Hcfg Hdec Hpre Hadd).
      unfold since; cbn [snd trace]. rewrite drop_app_length.
      change (?x :: ?l) with ([x] ++ l).
      unfold reads. rewrite !omap_app. fold (reads (CallAdd (MapState := MapState) <$> pre ++ [p])).
      by rewrite Hcalls.
  - intros cfgs Hcfg Hdec. by rewrite stateImport_saves, Hcfg, Hdec.
Qed.

(** X9.  [export] writes what was restored: the pins of the restored state,
    current or migrated, marshalled with no prefix and an indentation of
    four spaces and followed by a newline, appended to the sink.  When
    marshalling fails the sink is left as it was and the error is
    returned. *)
Theorem export_writes_restored sink w st cur :
  (restoreStateFromDisk env w).1 = (Some st, cur, None) ->
  wfail sink = None ->
  (forall b, json.MarshalIndent (mapstate.List st) "" "    " = inl b ->
     (export env sink w).1
     = ({| written := written sink ++ b ++ [json.newline]; wfail := None |}, None))
  /\ (forall e, json.MarshalIndent (mapstate.List st) "" "    " = inr e ->
     (export env sink w).1 = (sink, Some (External e))).
Proof.
  intros Hres Hsink. rewrite (export_result _ _ _ _ Hres). unfold json.Encode.
  split.
  - intros b ->. unfold io.Write. by rewrite Hsink.
  - by intros e ->.
Qed.

End CommandFacts.

(** * Properties of config/util.go *)

(** Induction on a [config.Value] with its fields, elements, entries and
    pointer target. *)
Section ValueInduction.
Variable P : config.Value -> Prop.
Hypothesis HStruct : forall fields, Forall (fun nf => P nf.2) fields -> P (config.Struct fields).
Hypothesis HSlice : forall elems, Forall P elems -> P (config.Slice elems).
Hypothesis HMap : forall entries,
  Forall (fun kv => P kv.1 /\ P kv.2) entries -> P (config.Map entries).
Hypothesis HPtr : forall target,
  match target with Some t => P t | None => True end -> P (config.Ptr target).
Hypothesis HStr : forall s, P (config.Str s).
Hypothesis HInt : forall n, P (config.Int n).
Hypothesis HBool : forall b, P (config.Bool b).
Hypothesis HFloat64 : forall text, P (config.Float64 text).
Hypothesis HInt64 : forall n, P (config.Int64 n).
Hypothesis HUint64 : forall n, P (config.Uint64 n).
Hypothesis HUint32 : forall n, P (config.Uint32 n).
Hypothesis HOther : forall kind, P (config.Other kind).

Fixpoint Value_nested_ind (v : config.Value) : P v :=
  match v with
  | config.Struct fields =>
    HStruct fields
      ((fix go (fs : list (string * config.Value)) : Forall (fun nf => P nf.2) fs :=
          match fs with
          | [] => @List.Forall_nil _ _
          | (n, f) :: fs => @List.Forall_cons _ _ (n, f) fs (Value_nested_ind f) (go fs)
          end) fields)
  | config.Slice elems =>
    HSlice elems
      ((fix go (es : list config.Value) : Forall P es :=
          match es with
          | [] => @List.Forall_nil _ _
          | e :: es => @List.Forall_cons _ _ e es (Value_nested_ind e) (go es)
          end) elems)
  | config.Map entries =>
    HMap entries
      ((fix go (es : list (config.Value * config.Value))
          : Forall (fun kv => P kv.1 /\ P kv.2) es :=
          match es with
          | [] => @List.Forall_nil _ _
          | (k, e) :: es =>
            @List.Forall_cons _ _ (k, e) es (conj (Value_nested_ind k) (Value_nested_ind e)) (go es)
          end) entries)
  | config.Ptr target =>
    HPtr target
      (match target with
       | Some t => Value_nested_ind t
       | None => I
       end)
  | config.Str s => HStr s
  | config.Int n => HInt n
  | config.Bool b => HBool b
  | config.Float64 text => HFloat64 text
  | config.Int64 n => HInt64 n
  | config.Uint64 n => HUint64 n
  | config.Uint32 n => HUint32 n
  | config.Other kind => HOther kind
  end.
End ValueInduction.

(** X10.  [in] is membership: it answers true exactly for the strings of
    the slice, and false for every string when the slice is empty or nil. *)
Theorem in_is_membership (arr : list string) (a : string) :
  (config.in_ arr a = true <-> a ∈ arr) /\ config.in_ [] a = false.
Proof.
  split; [|done]. induction arr as [|f arr IH]; cbn.
  - split; [done|]. by intros ?%elem_of_nil.
  - case_bool_decide as Haf.
    + subst. split; [|done]. intros _. by left.
    + rewrite IH, elem_of_cons. split; [by right|]. by intros [?|?].
Qed.

(** What [sType] prints for a slice or a map does not depend on [hidden]. *)
Lemma sType_slice_map_hidden v hidden padding :
  match v with config.Slice _ | config.Map _ => True | _ => False end ->
  config.sType v hidden padding = config.sType v [] padding.
Proof. by destruct v. Qed.

(** [sType] with [hidden] against [sType] of the pruned value, for a value
    and, when it is a pointer, for what it points to. *)
Lemma sType_prune_pointer (v : config.Value) (hidden : list string) :
  (forall padding,
     config.sType v hidden padding = config.sType (config.prune hidden v) [] padding)
  /\ match v with
     | config.Ptr (Some t) =>
       forall padding,
         config.sType t hidden padding = config.sType (config.prune hidden t) [] padding
     | _ => True
     end.
Proof.
  induction v as [fields IH| | |target IH| | | | | | | |] using Value_nested_ind;
    try done.
  - split; [|done]. intros padding. cbn. f_equal. f_equal. f_equal.
    generalize (padding +:+ "  ") as childPadding. intros childPadding.
    induction IH as [|[childName field] fs [Hfield Htarget] _ IHfs]; [done|].
    cbn. destruct (config.in_ hidden childName); [done|].
    rewrite IHfs. f_equal. cbn in Hfield, Htarget.
    rewrite (Hfield childPadding).
    destruct field as [ffields|elems|entries|[t|]| | | | | | | |]; try reflexivity.
    by rewrite (Htarget childPadding).
  - split; [done|]. destruct target as [t|]; [|done]. apply IH.
Qed.

(** X11.  [hidden] removes struct fields by name, at every depth that is
    reached through struct fields and through pointer fields, and nowhere
    else: printing [v] with [hidden] is printing [v] without these fields
    and nothing hidden.  Structs inside slices and maps keep all their
    fields. *)
Theorem sType_hidden_is_prune (v : config.Value) (hidden : list string) (padding : string) :
  config.sType v hidden padding = config.sType (config.prune hidden v) [] padding.
Proof. apply sType_prune_pointer. Qed.

Lemma append_empty_r (s : string) : s +:+ "" = s.
Proof.
  induction s as [|a s IH]; [done|].
  change (String a (s +:+ "") = String a s). by rewrite IH.
Qed.

(** X12.  Maps and pointers print as nothing: [String] of a map or of a
    pointer is the empty string whatever it holds or points to, and a struct
    prints the same whatever a map among its fields holds.  Only a pointer
    that is a struct field is followed. *)
Theorem sType_map_pointer_blank (hidden : list string) :
  (forall target, config.String (config.Ptr target) hidden = "")
  /\ (forall entries, config.String (config.Map entries) hidden = "")
  /\ (forall pre name entries1 entries2 post padding,
        config.sType (config.Struct (pre ++ (name, config.Map entries1) :: post))
          hidden padding
        = config.sType (config.Struct (pre ++ (name, config.Map entries2) :: post))
            hidden padding)
  /\ (forall name t padding,
        config.in_ hidden name = false ->
        config.sType (config.Struct [(name, config.Ptr (Some t))]) hidden padding
        = "{" +:+ config.nl
            +:+ ((padding +:+ "  ") +:+ config.padRight 20 name +:+ " : "
                   +:+ config.sType t hidden (padding +:+ "  ") +:+ "," +:+ config.nl)
            +:+ padding +:+ "}").
Proof.
  split_and!; try done.
  - intros pre name entries1 entries2 post padding. cbn. do 3 f_equal.
    generalize (padding +:+ "  ") as childPadding. intros childPadding.
    induction pre as [|[n f] pre IH]; cbn; [done|]. by rewrite IH.
  - intros name t padding Hshown. cbn. by rewrite Hshown, append_empty_r.
Qed.

(** [SetIfNotDefault] in one line: an assignment when [src] is a
    non-default value of a known type, nothing otherwise. *)
Lemma SetIfNotDefault_unfold (src : config.Val) (dest : config.Dest) :
  config.SetIfNotDefault src dest
  = if config.supported src && negb (config.isDefault src)
    then config.assign src dest
    else config.Returned dest.
Proof.
  destruct src as [t|str|n|n|[|]|ty]; cbn; try done.
  - destruct (decide (t = 0)) as [->|Hne]; [done|].
    by rewrite bool_decide_eq_true_2, bool_decide_eq_false_2.
  - destruct (decide (str = "")) as [->|Hne]; [done|].
    by rewrite bool_decide_eq_true_2, bool_decide_eq_false_2.
  - destruct (decide (n = 0)) as [->|Hne]; [done|].
    by rewrite bool_decide_eq_true_2, bool_decide_eq_false_2.
  - destruct (decide (n = 0)) as [->|Hne]; [done|].
    by rewrite bool_decide_eq_true_2, bool_decide_eq_false_2.
Qed.

Lemma assign_panics (v : config.Val) (dest : config.Dest) :
  config.assign v dest = config.Panic
  <-> forall old, dest = config.Pointer old -> config.sameType old v = false.
Proof.
  destruct dest as [old| |]; cbn.
  - destruct (config.sameType old v) eqn:Hty.
    + split; [done|]. intros Hold. by rewrite (Hold old eq_refl) in Hty.
    + split; [|done]. by intros _ ? [= <-].
  - split; [|done]. by intros _ ? [=].
  - split; [|done]. by intros _ ? [=].
Qed.

(** X13.  [SetIfNotDefault] panics exactly when [src] is a non-default
    value of a type the switch knows and [dest] is not a non-nil pointer to
    that type.  A default [src], or one of another type, never panics and
    leaves [dest] as it is, whatever [dest] is. *)
Theorem SetIfNotDefault_panics (src : config.Val) (dest : config.Dest) :
  (config.SetIfNotDefault src dest = config.Panic
   <-> config.supported src = true /\ config.isDefault src = false
       /\ forall old, dest = config.Pointer old -> config.sameType old src = false)
  /\ (config.isDefault src = true \/ config.supported src = false ->
      config.SetIfNotDefault src dest = config.Returned dest).
Proof.
  rewrite SetIfNotDefault_unfold.
  destruct (config.supported src), (config.isDefault src); cbn.
  - split; [|done]. split; [done|]. by intros (_ & ? & _).
  - rewrite assign_panics. split; [|by intros [?|?]].
    split; [by intros ?|]. by intros (_ & _ & ?).
  - split; [|done]. split; [done|]. by intros (? & _).
  - split; [|done]. split; [done|]. by intros (? & _).
Qed.


Section ParseDurationsFacts.
Variable parse : string -> Z + string.
Implicit Types (args : list (option config.DurationOpt)) (σ : config.Store).

(** When every argument is handled, the call returns nil. *)
Lemma ParseDurations_handled component args σ :
  Forall (config.handled parse) args ->
  (config.ParseDurations parse component args σ).2 = config.Returned None.
Proof.
  revert σ. induction args as [|a args IH]; intros σ Hall; [done|].
  apply Forall_cons in Hall as [(arg & -> & Harg) Hall]. cbn.
  case_bool_decide as Hempty; [by apply IH|].
  destruct Harg as [?|(t & l & -> & ->)]; [done|]. by apply IH.
Qed.

(** X15.  [ParseDurations] returns nil exactly when every argument is
    there and has an empty duration, or a duration that parses and a place
    to store it. *)
Theorem ParseDurations_nil_iff component args σ :
  (config.ParseDurations parse component args σ).2 = config.Returned None
  <-> Forall (config.handled parse) args.
Proof.
  split; [|apply ParseDurations_handled].
  revert σ. induction args as [|[arg|] args IH]; intros σ Hnil; cbn in *;
    [by apply Forall_nil| |done].
  case_bool_decide as Hempty.
  - apply Forall_cons. split; [|by eapply IH]. exists arg. by auto.
  - destruct (parse (config.Duration arg)) as [t|err] eqn:Hparse; [|done].
    destruct (config.Dst arg) as [l|] eqn:Hdst; [|done].
    apply Forall_cons. split; [|by eapply IH]. exists arg. split; [done|].
    right. by exists t, l.
Qed.

(** X16.  At the first duration that does not parse, [ParseDurations]
    returns an error that names the component and the argument.  The
    arguments before it have been stored, as a call on them alone would
    have; the arguments after it are not looked at. *)
Theorem ParseDurations_first_error component pre bad post σ err :
  Forall (config.handled parse) pre ->
  config.Duration bad <> "" ->
  parse (config.Duration bad) = inr err ->
  config.ParseDurations parse component (pre ++ Some bad :: post) σ
  = ((config.ParseDurations parse component pre σ).1,
     config.Returned
       (Some ("error parsing " +:+ component +:+ "." +:+ config.Name bad
                +:+ ": " +:+ err))).
Proof.
  intros Hpre Hne Hbad. revert σ.
  induction Hpre as [|a pre (arg & -> & Harg) _ IH]; intros σ; cbn.
  - rewrite bool_decide_eq_false_2 by done. by rewrite Hbad.
  - case_bool_decide as Hempty; [by apply IH|].
    destruct Harg as [?|(t & l & -> & ->)]; [done|]. by apply IH.
Qed.

(** A location that no argument with a non-empty duration points to
    keeps its value, however the call ends. *)
Lemma ParseDurations_untouched component args σ l :
  Forall (fun a => ~ config.targets l a) args ->
  (config.ParseDurations parse component args σ).1 !! l = σ !! l.
Proof.
  revert σ. induction args as [|[arg|] args IH]; intros σ Hall; cbn; try done.
  apply Forall_cons in Hall as [Harg Hall].
  case_bool_decide as Hempty; [by apply IH|].
  destruct (parse (config.Duration arg)) as [t|err]; [|done].
  destruct (config.Dst arg) as [l'|] eqn:Hdst; [|done].
  rewrite IH by done. apply lookup_insert_ne. intros ->.
  apply Harg. by exists arg.
Qed.

(** X17.  [ParseDurations] writes only where an argument with a non-empty
    duration points: every other location keeps its value, whether the call
    returns nil, returns an error or panics.  With empty durations only,
    the store is left as it is. *)
Theorem ParseDurations_frame component args σ l :
  (Forall (fun a => ~ config.targets l a) args ->
   (config.ParseDurations parse component args σ).1 !! l = σ !! l)
  /\ (Forall (fun a => exists arg, a = Some arg /\ config.Duration arg = "") args ->
      config.ParseDurations parse component args σ = (σ, config.Returned None)).
Proof.
  split; [apply ParseDurations_untouched|].
  revert σ. induction args as [|a args IH]; intros σ Hall; [done|].
  apply Forall_cons in Hall as [(arg & -> & Hempty) Hall]. cbn.
  rewrite bool_decide_eq_true_2 by done. by apply IH.
Qed.

(** X18.  When [ParseDurations] returns nil, a location holds the parsed
    duration of the last argument that points to it. *)
Theorem ParseDurations_last_wins component pre arg post σ l t :
  Forall (config.handled parse) (pre ++ Some arg :: post) ->
  config.Duration arg <> "" ->
  config.Dst arg = Some l ->
  parse (config.Duration arg) = inl t ->
  Forall (fun a => ~ config.targets l a) post ->
  (config.ParseDurations parse component (pre ++ Some arg :: post) σ).1 !! l = Some t.
Proof.
  intros Hall Hne Hdst Hparse Hpost. revert σ.
  apply Forall_app in Hall as [Hpre _].
  induction Hpre as [|a pre (arg' & -> & Harg') _ IH]; intros σ; cbn.
  - rewrite bool_decide_eq_false_2 by done. rewrite Hparse, Hdst.
    rewrite ParseDurations_untouched by done. apply lookup_insert_eq.
  - case_bool_decide as Hempty; [by apply IH|].
    destruct Harg' as [?|(t' & l' & -> & ->)]; [done|]. by apply IH.
Qed.

End ParseDurationsFacts.

Section SaverFacts.
Implicit Types (sv : config.Saver) (ops : list config.Op).

(** The channel of a [Saver], if any, is one [NotifySave] or [SaveCh]
    could have made, and holds no more than it has room for. *)
Definition saverOk sv : Prop :=
  match config.save sv with
  | None => True
  | Some ch =>
    (config.buffered ch <= config.capacity ch)%nat
    /\ (config.capacity ch = 0%nat \/ config.capacity ch = 10%nat)
  end.

Lemma step_saverOk sv op : saverOk sv -> saverOk (config.step sv op).
Proof.
  unfold saverOk, config.step, config.NotifySave, config.SaveCh, config.receive,
    config.SetBaseDir.
  destruct sv as [[[c b]|] dir]; cbn; intros Hok.
  - destruct Hok as [Hb Hc].
    destruct op as [[|]| | |dir']; cbn; try done.
    + case_bool_decide; cbn; split; try done; lia.
    + split; [lia|done].
  - destruct op as [[|]| | |dir']; cbn; try done;
      try (case_bool_decide; cbn); (split; [lia|auto]).
Qed.

(** X19.  Whatever a program does with a [Saver] that starts without a
    channel, the channel never holds more signals than its capacity, and
    the capacity is 10 when [NotifySave] made the channel and 0 when
    [SaveCh] did: at most 10 signals are ever pending. *)
Theorem Saver_bounded ops dir :
  match config.save (foldl config.step {| config.save := None; config.BaseDir := dir |} ops) with
  | None => True
  | Some ch =>
    (config.buffered ch <= config.capacity ch)%nat
    /\ (config.capacity ch = 0%nat \/ config.capacity ch = 10%nat)
    /\ (config.buffered ch <= 10)%nat
  end.
Proof.
  assert (Hok : saverOk (foldl config.step
                           {| config.save := None; config.BaseDir := dir |} ops)).
  { generalize {| config.save := None; config.BaseDir := dir |} (I : saverOk {| config.save := None; config.BaseDir := dir |}).
    induction ops as [|op ops IH]; intros sv Hsv; [done|].
    cbn. apply IH. by apply step_saverOk. }
  unfold saverOk in Hok. destruct (config.save _) as [ch|]; [|done].
  destruct Hok as [? [?|?]]; split_and!; auto; lia.
Qed.

(** A run of [NotifySave] calls with nobody receiving, on a channel with
    [b] of [c] places taken. *)
Lemma notifyAll_run n c b dir :
  (b <= c)%nat ->
  config.notifyAll n {| config.save := Some {| config.capacity := c; config.buffered := b |};
                        config.BaseDir := dir |}
  = ({| config.save := Some {| config.capacity := c; config.buffered := min (b + n) c |};
        config.BaseDir := dir |},
     replicate (b + n - c) "configuration save channel full"%string).
Proof.
  revert b. induction n as [|n IH]; intros b Hb.
  - cbn. rewrite Nat.add_0_r, Nat.min_l by done.
    replace (b - c)%nat with 0%nat by lia. done.
  - cbn [config.notifyAll]. unfold config.NotifySave.
    cbn [config.save config.capacity config.buffered config.BaseDir].
    case_bool_decide as Hroom.
    + rewrite IH by lia. cbn [app].
      replace (S b + n)%nat with (b + S n)%nat by lia. done.
    + assert (b = c) as -> by lia. rewrite IH by lia.
      rewrite !Nat.min_r by lia.
      replace (c + S n - c)%nat with (S (c + n - c)) by lia. done.
Qed.

(** X20.  [n] calls of [NotifySave] with nobody receiving fill the channel
    up to its capacity; each further call is dropped with the warning
    "configuration save channel full". *)
Theorem NotifySave_fills_then_drops n c b dir :
  (b <= c)%nat ->
  config.notifyAll n {| config.save := Some {| config.capacity := c; config.buffered := b |};
                        config.BaseDir := dir |}
  = ({| config.save := Some {| config.capacity := c; config.buffered := min (b + n) c |};
        config.BaseDir := dir |},
     replicate (b + n - c) "configuration save channel full"%string).
Proof. apply notifyAll_run. Qed.

(** X21.  Which of [SaveCh] and [NotifySave] comes first decides the
    channel.  After [NotifySave] on a new [Saver] the first 10 signals are
    kept; after [SaveCh] on a new [Saver] the channel has no buffer, later
    calls keep it, and every [NotifySave] with nobody receiving is dropped
    with a warning. *)
Theorem Saver_first_call_decides n dir :
  config.notifyAll n {| config.save := None; config.BaseDir := dir |}
  = ({| config.save := if n is O then None
                       else Some {| config.capacity := 10; config.buffered := min n 10 |};
        config.BaseDir := dir |},
     replicate (n - 10) "configuration save channel full"%string)
  /\ config.notifyAll n (config.SaveCh {| config.save := None; config.BaseDir := dir |}).1
     = ({| config.save := Some {| config.capacity := 0; config.buffered := 0 |};
           config.BaseDir := dir |},
        replicate n "configuration save channel full"%string)
  /\ (config.SaveCh (config.NotifySave false {| config.save := None; config.BaseDir := dir |}).1).2
     = {| config.capacity := 10; config.buffered := 1 |}.
Proof.
  split_and!.
  - destruct n as [|n]; [done|]. cbn [config.notifyAll]. unfold config.NotifySave.
    cbn [config.save config.capacity config.buffered config.BaseDir].
    rewrite bool_decide_eq_true_2 by lia.
    by rewrite (notifyAll_run n 10 1 dir) by lia.
  - unfold config.SaveCh. cbn [config.save config.BaseDir fst].
    rewrite (notifyAll_run n 0 0 dir) by lia.
    by rewrite Nat.add_0_l, Nat.min_0_r, Nat.sub_0_r.
  - done.
Qed.

End SaverFacts.

(** ** The further properties on concrete inputs *)

Lemma restore_result_invariant_witness :
  ((None : option error) = None <-> is_Some (Some {| Ref.version := 2; Ref.PinMap := {[ 7%N := 2%N; 9%N := 3%N ]} |}))
  /\ (true = true ->
      exists st, Some {| Ref.version := 2; Ref.PinMap := {[ 7%N := 2%N; 9%N := 3%N ]} |} = Some st
                 /\ (None : option error) = None
                 /\ mapstate.GetVersion st = mapstate.Version)
  /\ loads (restoreStateFromDisk (Ref.world (Ref.present Ref.snapV2) []) start).2 = 1%nat.
Proof.
  apply (restore_result_invariant (Ref.world (Ref.present Ref.snapV2) []) start
           (Some {| Ref.version := 2; Ref.PinMap := {[ 7%N := 2%N; 9%N := 3%N ]} |})
           true None).
  vm_compute. reflexivity.
Defined.

Lemma validateVersion_store_error_witness :
  (validateVersion (Ref.world Ref.unreadable []) (consensusCfg Ref.cfg) start).1
  = Some (External "open raft/snapshots: permission denied")
  /\ logged (since start
       (validateVersion (Ref.world Ref.unreadable []) (consensusCfg Ref.cfg) start).2)
     = ["error before reading latest snapshot."%string]
  /\ flagsCorruption (logged (since start
       (validateVersion (Ref.world Ref.unreadable []) (consensusCfg Ref.cfg) start).2))
     = false
  /\ reads (since start
       (validateVersion (Ref.world Ref.unreadable []) (consensusCfg Ref.cfg) start).2) = [].
Proof.
  apply (validateVersion_store_error (Ref.world Ref.unreadable [])
           (consensusCfg Ref.cfg) start (Ref.stream [])).
  reflexivity.
Defined.

Lemma check_agrees_with_restore_witness :
  (validateVersion (Ref.world (Ref.present Ref.snapV1) []) (consensusCfg Ref.cfg) start).1
    = None
  <-> exists st,
        (restoreStateFromDisk (Ref.world (Ref.present Ref.snapV1) []) start).1
        = (Some st, true, None).
Proof.
  apply (check_agrees_with_restore (Ref.world (Ref.present Ref.snapV1) [])
           start start Ref.cfg Ref.snapV1); reflexivity.
Defined.

Lemma upgrade_nil_sound_witness :
  (exists st,
      (restoreStateFromDisk (Ref.world (Ref.present Ref.snapV1) ["QmA"%string]) start).1
      = (Some st, true, None)
      /\ saves (since start (upgrade (Ref.world (Ref.present Ref.snapV1) ["QmA"%string]) start).2)
         = [])
  \/ (exists st cfgs,
        (restoreStateFromDisk (Ref.world (Ref.present Ref.snapV1) ["QmA"%string]) start).1
        = (Some st, false, None)
        /\ LoadJSONFileAndEnv (Ref.world (Ref.present Ref.snapV1) ["QmA"%string]) 1 = (cfgs, None)
        /\ saves (since start (upgrade (Ref.world (Ref.present Ref.snapV1) ["QmA"%string]) start).2)
           = [(consensusCfg cfgs, st,
               raftPeers (Ref.world (Ref.present Ref.snapV1) ["QmA"%string]) cfgs)]
        /\ SnapshotSave (Ref.world (Ref.present Ref.snapV1) ["QmA"%string])
             (consensusCfg cfgs) st
             (raftPeers (Ref.world (Ref.present Ref.snapV1) ["QmA"%string]) cfgs) = None).
Proof.
  apply (upgrade_nil_sound (Ref.world (Ref.present Ref.snapV1) ["QmA"%string]) start).
  reflexivity.
Defined.

Lemma fresh_node_no_snapshot_witness :
  (upgrade (Ref.world Ref.absent []) start).1 = Some errNoSnapshot
  /\ saves (since start (upgrade (Ref.world Ref.absent []) start).2) = []
  /\ (export (Ref.world Ref.absent []) {| written := []; wfail := None |} start).1
     = ({| written := []; wfail := None |}, Some errNoSnapshot).
Proof.
  apply (fresh_node_no_snapshot (Ref.world Ref.absent [])
           {| written := []; wfail := None |} start Ref.cfg (Ref.stream []));
    reflexivity.
Defined.

Lemma stateImport_nil_sound_witness :
  exists cfgs pins st,
    LoadJSONFileAndEnv (Ref.world Ref.absent []) 0 = (cfgs, None)
    /\ json.Decode (Ref.stream [x07; x02; x07; x05]) = inl pins
    /\ addedAll mapstate.NewMapState pins = Some st
    /\ adds (since start
         (stateImport (Ref.world Ref.absent []) (Ref.stream [x07; x02; x07; x05]) start).2)
       = pins
    /\ saves (since start
         (stateImport (Ref.world Ref.absent []) (Ref.stream [x07; x02; x07; x05]) start).2)
       = [(consensusCfg cfgs, st, raftPeers (Ref.world Ref.absent []) cfgs)]
    /\ SnapshotSave (Ref.world Ref.absent []) (consensusCfg cfgs) st
         (raftPeers (Ref.world Ref.absent []) cfgs) = None.
Proof.
  apply (stateImport_nil_sound (Ref.world Ref.absent [])
           (Ref.stream [x07; x02; x07; x05]) start).
  reflexivity.
Defined.

Lemma export_writes_restored_witness :
  (forall b,
     json.MarshalIndent
       (mapstate.List {| Ref.version := 2; Ref.PinMap := {[ 7%N := 0%N; 9%N := 0%N ]} |})
       "" "    " = inl b ->
     (export (Ref.world (Ref.present Ref.snapV1) []) {| written := [x00]; wfail := None |}
        start).1
     = ({| written := [x00] ++ b ++ [json.newline]; wfail := None |}, None))
  /\ (forall e,
     json.MarshalIndent
       (mapstate.List {| Ref.version := 2; Ref.PinMap := {[ 7%N := 0%N; 9%N := 0%N ]} |})
       "" "    " = inr e ->
     (export (Ref.world (Ref.present Ref.snapV1) []) {| written := [x00]; wfail := None |}
        start).1
     = ({| written := [x00]; wfail := None |}, Some (External e))).
Proof.
  apply (export_writes_restored (Ref.world (Ref.present Ref.snapV1) [])
           {| written := [x00]; wfail := None |} start
           {| Ref.version := 2; Ref.PinMap := {[ 7%N := 0%N; 9%N := 0%N ]} |} false);
    reflexivity.
Defined.


(** The second duration does not parse: the first is stored, the third is
    not. *)
Lemma ParseDurations_first_error_witness :
  config.ParseDurations RefTime.ParseDuration "raft"
    [Some {| config.Duration := "30s"; config.Dst := Some 0%nat; config.Name := "wait_for_leader_timeout" |};
     Some {| config.Duration := "soon"; config.Dst := Some 1%nat; config.Name := "commit_retry_delay" |};
     Some {| config.Duration := "5m"; config.Dst := Some 2%nat; config.Name := "snapshot_interval" |}]
    ∅
  = ({[ 0%nat := 30000000000 ]},
     config.Returned
       (Some "error parsing raft.commit_retry_delay: time: invalid duration soon"%string)).
Proof.
  apply (ParseDurations_first_error RefTime.ParseDuration "raft"
           [Some {| config.Duration := "30s"; config.Dst := Some 0%nat;
                    config.Name := "wait_for_leader_timeout" |}]
           {| config.Duration := "soon"; config.Dst := Some 1%nat;
              config.Name := "commit_retry_delay" |}
           [Some {| config.Duration := "5m"; config.Dst := Some 2%nat;
                    config.Name := "snapshot_interval" |}]
           ∅ "time: invalid duration soon").
  - apply Forall_cons. split; [|by apply Forall_nil].
    eexists. split; [reflexivity|]. right. by exists 30000000000, 0%nat.
  - done.
  - reflexivity.
Defined.

(** Two arguments point to the same place: the later one stays. *)
Lemma ParseDurations_last_wins_witness :
  (config.ParseDurations RefTime.ParseDuration "raft"
     [Some {| config.Duration := "30s"; config.Dst := Some 0%nat; config.Name := "a" |};
      Some {| config.Duration := "1s"; config.Dst := Some 0%nat; config.Name := "b" |};
      Some {| config.Duration := ""; config.Dst := None; config.Name := "c" |}]
     ∅).1 !! 0%nat
  = Some 1000000000.
Proof.
  apply (ParseDurations_last_wins RefTime.ParseDuration "raft"
           [Some {| config.Duration := "30s"; config.Dst := Some 0%nat; config.Name := "a" |}]
           {| config.Duration := "1s"; config.Dst := Some 0%nat; config.Name := "b" |}
           [Some {| config.Duration := ""; config.Dst := None; config.Name := "c" |}]
           ∅ 0%nat 1000000000).
  - repeat (apply Forall_cons; split); try by apply Forall_nil.
    + eexists. split; [reflexivity|]. right. by exists 30000000000, 0%nat.
    + eexists. split; [reflexivity|]. right. by exists 1000000000, 0%nat.
    + eexists. split; [reflexivity|]. by left.
  - done.
  - reflexivity.
  - reflexivity.
  - apply Forall_cons. split; [|by apply Forall_nil].
    intros (arg & [= <-] & Hne & _). by apply Hne.
Defined.

Lemma NotifySave_fills_then_drops_witness :
  config.notifyAll 12 {| config.save := Some {| config.capacity := 10; config.buffered := 0 |};
                         config.BaseDir := "" |}
  = ({| config.save := Some {| config.capacity := 10; config.buffered := 10 |};
        config.BaseDir := "" |},
     ["configuration save channel full"%string; "configuration save channel full"%string]).
Proof.
  apply (NotifySave_fills_then_drops 12 10 0 ""). lia.
Defined.

(** A field name of one rune in two bytes ("é") is padded with 19 spaces. *)
Example padRight_counts_runes :
  String.length
    (config.padRight 20
       (String (Ascii.ascii_of_nat 195) (String (Ascii.ascii_of_nat 169) EmptyString)))
  = 21%nat
  /\ String.length (config.padRight 20 "ID") = 20%nat.
Proof. split; reflexivity. Qed.

Example String_example :
  config.String
    (config.Struct
       [("ID"%string, config.Str "Qm");
        ("Secret"%string, config.Str "hush");
        ("Peers"%string, config.Slice [config.Struct [("Secret"%string, config.Int 1)]])])
    ["Secret"%string]
  = "{" +:+ config.nl
    +:+ "  ID                   : Qm," +:+ config.nl
    +:+ "  Peers                : [" +:+ config.nl
    +:+ "    {" +:+ config.nl
    +:+ "  Secret               : 1," +:+ config.nl
    +:+ "}," +:+ config.nl
    +:+ "  ]," +:+ config.nl
    +:+ "}".
Proof. reflexivity. Qed.
